(** * nextpnr: the base context (common/basectx.cc)

    A shallow embedding of [BaseCtx]: the registries of cells and nets, the
    net-alias table, regions, the hierarchy index, the binding primitives and
    the attribute codec ([archInfoToAttributes] / [attributesToArchInfo]).

    Conventions.
    - An [IdString] is an interned string; handle equality is string
      equality, so it is a [string] here.
    - A C++ pointer into a registry ([CellInfo *], [NetInfo *], [Region *])
      is the key under which the registry owns the object; [nullptr] is
      [None].
    - An operation that can stop abnormally (a failed [NPNR_ASSERT], an
      exception of [dict::at] or [std::stoi], a null dereference) returns
      [option]: [None] is the abnormal stop, after which no state is
      observed; [addBelToRegion_outcome] keeps the design as it is at the
      stop as well.
    - [int] is a 32-bit two's complement integer carried in [Z]; a
      [PlaceStrength] is carried as the numeric value of its enumerator. *)

From Stdlib Require Import ZArith Ascii String List Lia.
From Stdlib Require Import DecimalString DecimalPos DecimalFacts.
From stdpp Require Import base option list gmap strings fin_maps.

Local Open Scope Z_scope.

Abbreviation IdString := string (only parsing).

(** ** Machine integers *)

Definition INT_MIN : Z := - 2 ^ 31.
Definition INT_MAX : Z := 2 ^ 31 - 1.

Definition int_range (z : Z) : Prop := INT_MIN ≤ z ≤ INT_MAX.

Definition int_rangeb (z : Z) : bool := (INT_MIN <=? z) && (z <=? INT_MAX).

(** Narrowing of an [int64_t] to [int]: the low 32 bits, sign extended. *)
Definition to_int (z : Z) : Z := (z + 2 ^ 31) mod 2 ^ 32 - 2 ^ 31.

(** ** Strings: [boost::split], [std::to_string], [std::stoi] *)

Definition semicolon : ascii := ";"%char.

(** [boost::split(strs, s, boost::is_any_of(";"))] with the default
    [token_compress_off]: one field per separator plus one; the empty string
    gives one empty field. *)
Fixpoint split_semi (s : string) : list string :=
  match s with
  | EmptyString => [EmptyString]
  | String c s' =>
      if Ascii.eqb c semicolon then EmptyString :: split_semi s'
      else match split_semi s' with
           | [] => [String c EmptyString]
           | f :: fs => String c f :: fs
           end
  end.

(** A string without the field separator. *)
Fixpoint no_semi (s : string) : Prop :=
  match s with
  | EmptyString => True
  | String c s' => c ≠ semicolon ∧ no_semi s'
  end.

(** [std::to_string(int)]: decimal digits, with a leading minus sign for a
    negative number. *)
Definition to_string (z : Z) : string :=
  match z with
  | Z0 => "0"
  | Zpos p => NilEmpty.string_of_uint (Pos.to_uint p)
  | Zneg p => String "-" (NilEmpty.string_of_uint (Pos.to_uint p))
  end.

Definition digit_of (c : ascii) : option Z :=
  let n := Z.of_N (N_of_ascii c) in
  if (48 <=? n) && (n <=? 57) then Some (n - 48) else None.

(** [isspace] in the "C" locale. *)
Definition is_space (c : ascii) : bool :=
  let n := Z.of_N (N_of_ascii c) in
  (n =? 32) || ((9 <=? n) && (n <=? 13)).

Fixpoint skip_space (s : string) : string :=
  match s with
  | String c s' => if is_space c then skip_space s' else s
  | EmptyString => s
  end.

(** The longest prefix of decimal digits, accumulated most significant
    first. *)
Fixpoint stoi_digits (acc : Z) (s : string) : Z :=
  match s with
  | String c s' =>
      match digit_of c with
      | Some d => stoi_digits (10 * acc + d) s'
      | None => acc
      end
  | EmptyString => acc
  end.

Definition starts_with_digit (s : string) : bool :=
  match s with
  | String c _ => bool_decide (is_Some (digit_of c))
  | EmptyString => false
  end.

(** [std::stoi(s)] in base 10: leading white space is skipped, then an
    optional sign, then the longest run of digits; trailing characters are
    ignored.  [None] stands for [std::invalid_argument] (no digit) and
    [std::out_of_range] (the value does not fit an [int]). *)
Definition stoi (s : string) : option Z :=
  let s1 := skip_space s in
  let '(neg, s2) :=
    match s1 with
    | String "-" r => (true, r)
    | String "+" r => (false, r)
    | _ => (false, s1)
    end in
  if starts_with_digit s2 then
    let v := stoi_digits 0 s2 in
    let v := if neg : bool then - v else v in
    if int_rangeb v then Some v else None
  else None.

(** ** Attribute values *)

(** Modelled from the spec: [Property], the variant scalar (string or
    integer) held by [attrs] (data model, "attrs"); its declaration is not
    part of the sources.  A numeric value keeps its integer in [intval] and
    its bits, least significant first, in [str]; [as_string] and [as_int64]
    assert the kind of the value, the field [str] is read without a check. *)
Record Property := mkProperty {
  is_string : bool;
  str : string;
  intval : Z
}.

Fixpoint bit_chars (width : nat) (i : Z) (v : Z) : string :=
  match width with
  | O => EmptyString
  | S w => String (if Z.testbit v i then "1"%char else "0"%char) (bit_chars w (i + 1) v)
  end.

Definition Property_string (s : string) : Property :=
  {| is_string := true; str := s; intval := 0 |}.

Definition Property_int (v : Z) : Property :=
  {| is_string := false; str := bit_chars 32 0 v; intval := v |}.

Definition as_string (p : Property) : option string :=
  if is_string p then Some (str p) else None.

Definition as_int64 (p : Property) : option Z :=
  if is_string p then None else Some (intval p).

Inductive PortType := PORT_IN | PORT_OUT | PORT_INOUT.

(** ** The architecture service *)

(** What [BaseCtx] consumes from the architecture ([Context] / [Arch]) and
    from the headers: the handle types with their default-constructed (null)
    values, the naming functions ([getBelName(b).str(ctx)] and
    [getBelByName(IdStringList::parse(ctx, s))], likewise for wires and
    pips), the tile and pin enumeration, the delay conversion, the division
    of an [int] by a [float], and the constants [CellInfo::UNCONSTR],
    [STRENGTH_NONE] and [STRENGTH_USER]. *)
Class Arch := {
  BelId : Type;
  WireId : Type;
  PipId : Type;
  delay_t : Type;
  float : Type;
  BelId_eq_dec :: EqDecision BelId;
  BelId_countable :: Countable BelId;
  WireId_eq_dec :: EqDecision WireId;
  PipId_eq_dec :: EqDecision PipId;
  BelId_null : BelId;
  WireId_null : WireId;
  PipId_null : PipId;
  getBelName : BelId → string;
  getBelByNameStr : string → BelId;
  getWireName : WireId → string;
  getWireByNameStr : string → WireId;
  getPipName : PipId → string;
  getPipByNameStr : string → PipId;
  getPipDstWire : PipId → WireId;
  getBelsByTile : Z → Z → list BelId;
  getBelPins : BelId → list IdString;
  getBelPinType : BelId → IdString → PortType;
  getDelayFromNS : float → delay_t;
  int_div_float : Z → float → float;
  UNCONSTR : Z;
  STRENGTH_NONE : Z;
  STRENGTH_USER : Z
}.

(** ** Data model *)

Section BaseCtx.
Context `{arch : Arch}.

Definition PlaceStrength := Z.

Record PortRef := mkPortRef {
  pr_cell : option IdString;
  pr_port : IdString
}.

#[global] Instance PortRef_eq_dec : EqDecision PortRef.
Proof. solve_decision. Defined.

Record PortInfo := mkPortInfo {
  p_name : IdString;
  p_net : option IdString;
  p_type : PortType
}.

Record PipMap := mkPipMap {
  pip : PipId;
  strength : PlaceStrength
}.

Record DelayPair := mkDelayPair {
  min_delay : delay_t;
  max_delay : delay_t
}.

(** [DelayPair(delay_t delay)]. *)
Definition DelayPair_of (d : delay_t) : DelayPair :=
  {| min_delay := d; max_delay := d |}.

Record ClockConstraint := mkClockConstraint {
  high : DelayPair;
  low : DelayPair;
  period : DelayPair
}.

Record Region := mkRegion {
  r_name : IdString;
  constr_bels : bool;
  constr_wires : bool;
  constr_pips : bool;
  bels : gset BelId
}.

(** The children of a hierarchical instance: local name and full name, in
    the iteration order of the dictionaries. *)
Record HierarchicalCell := mkHierarchicalCell {
  leaf_cells : list (IdString * IdString);
  hier_cells : list (IdString * IdString)
}.

Record CellInfo := mkCellInfo {
  c_name : IdString;
  c_type : IdString;
  c_ports : gmap IdString PortInfo;
  c_attrs : gmap IdString Property;
  bel : BelId;
  belStrength : PlaceStrength;
  c_region : option IdString;
  constr_x : Z;
  constr_y : Z;
  constr_z : Z;
  constr_abs_z : bool;
  constr_parent : option IdString;
  constr_children : list IdString
}.

(** The bound wires of a net, in the iteration order of the dictionary;
    every wire occurs at most once as a key. *)
Record NetInfo := mkNetInfo {
  n_name : IdString;
  driver : PortRef;
  users : list PortRef;
  n_attrs : gmap IdString Property;
  wires : list (WireId * PipMap);
  clkconstr : option ClockConstraint
}.

Inductive LogArg :=
  | ArgStr (s : string)
  | ArgFloat (f : float).

Inductive LogEntry :=
  | LogWarning (fmt : string) (args : list LogArg)
  | LogInfo (fmt : string) (args : list LogArg).

(** A null [unique_ptr<Region>] in the region table is [None]. *)
Record BaseCtx := mkBaseCtx {
  cells : gmap IdString CellInfo;
  nets : gmap IdString NetInfo;
  net_aliases : gmap IdString IdString;
  region : gmap IdString (option Region);
  hierarchy : gmap IdString HierarchicalCell;
  log : list LogEntry
}.

(** *** Field updates *)

Definition set_c_attrs (a : gmap IdString Property) (ci : CellInfo) : CellInfo :=
  mkCellInfo (c_name ci) (c_type ci) (c_ports ci) a (bel ci) (belStrength ci)
    (c_region ci) (constr_x ci) (constr_y ci) (constr_z ci) (constr_abs_z ci)
    (constr_parent ci) (constr_children ci).

Definition set_c_ports (p : gmap IdString PortInfo) (ci : CellInfo) : CellInfo :=
  mkCellInfo (c_name ci) (c_type ci) p (c_attrs ci) (bel ci) (belStrength ci)
    (c_region ci) (constr_x ci) (constr_y ci) (constr_z ci) (constr_abs_z ci)
    (constr_parent ci) (constr_children ci).

Definition set_bel (b : BelId) (s : PlaceStrength) (ci : CellInfo) : CellInfo :=
  mkCellInfo (c_name ci) (c_type ci) (c_ports ci) (c_attrs ci) b s
    (c_region ci) (constr_x ci) (constr_y ci) (constr_z ci) (constr_abs_z ci)
    (constr_parent ci) (constr_children ci).

Definition set_c_region (r : option IdString) (ci : CellInfo) : CellInfo :=
  mkCellInfo (c_name ci) (c_type ci) (c_ports ci) (c_attrs ci) (bel ci) (belStrength ci)
    r (constr_x ci) (constr_y ci) (constr_z ci) (constr_abs_z ci)
    (constr_parent ci) (constr_children ci).

Definition set_constr_x (v : Z) (ci : CellInfo) : CellInfo :=
  mkCellInfo (c_name ci) (c_type ci) (c_ports ci) (c_attrs ci) (bel ci) (belStrength ci)
    (c_region ci) v (constr_y ci) (constr_z ci) (constr_abs_z ci)
    (constr_parent ci) (constr_children ci).

Definition set_constr_y (v : Z) (ci : CellInfo) : CellInfo :=
  mkCellInfo (c_name ci) (c_type ci) (c_ports ci) (c_attrs ci) (bel ci) (belStrength ci)
    (c_region ci) (constr_x ci) v (constr_z ci) (constr_abs_z ci)
    (constr_parent ci) (constr_children ci).

Definition set_constr_z (v : Z) (ci : CellInfo) : CellInfo :=
  mkCellInfo (c_name ci) (c_type ci) (c_ports ci) (c_attrs ci) (bel ci) (belStrength ci)
    (c_region ci) (constr_x ci) (constr_y ci) v (constr_abs_z ci)
    (constr_parent ci) (constr_children ci).

Definition set_constr_abs_z (v : bool) (ci : CellInfo) : CellInfo :=
  mkCellInfo (c_name ci) (c_type ci) (c_ports ci) (c_attrs ci) (bel ci) (belStrength ci)
    (c_region ci) (constr_x ci) (constr_y ci) (constr_z ci) v
    (constr_parent ci) (constr_children ci).

Definition set_constr_parent (p : option IdString) (ci : CellInfo) : CellInfo :=
  mkCellInfo (c_name ci) (c_type ci) (c_ports ci) (c_attrs ci) (bel ci) (belStrength ci)
    (c_region ci) (constr_x ci) (constr_y ci) (constr_z ci) (constr_abs_z ci)
    p (constr_children ci).

Definition set_constr_children (l : list IdString) (ci : CellInfo) : CellInfo :=
  mkCellInfo (c_name ci) (c_type ci) (c_ports ci) (c_attrs ci) (bel ci) (belStrength ci)
    (c_region ci) (constr_x ci) (constr_y ci) (constr_z ci) (constr_abs_z ci)
    (constr_parent ci) l.

Definition set_driver (d : PortRef) (ni : NetInfo) : NetInfo :=
  mkNetInfo (n_name ni) d (users ni) (n_attrs ni) (wires ni) (clkconstr ni).

Definition set_users (u : list PortRef) (ni : NetInfo) : NetInfo :=
  mkNetInfo (n_name ni) (driver ni) u (n_attrs ni) (wires ni) (clkconstr ni).

Definition set_n_attrs (a : gmap IdString Property) (ni : NetInfo) : NetInfo :=
  mkNetInfo (n_name ni) (driver ni) (users ni) a (wires ni) (clkconstr ni).

Definition set_wires (w : list (WireId * PipMap)) (ni : NetInfo) : NetInfo :=
  mkNetInfo (n_name ni) (driver ni) (users ni) (n_attrs ni) w (clkconstr ni).

Definition set_clkconstr (c : option ClockConstraint) (ni : NetInfo) : NetInfo :=
  mkNetInfo (n_name ni) (driver ni) (users ni) (n_attrs ni) (wires ni) c.

Definition set_cells (c : gmap IdString CellInfo) (ctx : BaseCtx) : BaseCtx :=
  mkBaseCtx c (nets ctx) (net_aliases ctx) (region ctx) (hierarchy ctx) (log ctx).

Definition set_nets (n : gmap IdString NetInfo) (ctx : BaseCtx) : BaseCtx :=
  mkBaseCtx (cells ctx) n (net_aliases ctx) (region ctx) (hierarchy ctx) (log ctx).

Definition set_net_aliases (a : gmap IdString IdString) (ctx : BaseCtx) : BaseCtx :=
  mkBaseCtx (cells ctx) (nets ctx) a (region ctx) (hierarchy ctx) (log ctx).

Definition set_region (r : gmap IdString (option Region)) (ctx : BaseCtx) : BaseCtx :=
  mkBaseCtx (cells ctx) (nets ctx) (net_aliases ctx) r (hierarchy ctx) (log ctx).

Definition log_warning (fmt : string) (args : list LogArg) (ctx : BaseCtx) : BaseCtx :=
  mkBaseCtx (cells ctx) (nets ctx) (net_aliases ctx) (region ctx) (hierarchy ctx)
    (log ctx ++ [LogWarning fmt args]).

Definition log_info (fmt : string) (args : list LogArg) (ctx : BaseCtx) : BaseCtx :=
  mkBaseCtx (cells ctx) (nets ctx) (net_aliases ctx) (region ctx) (hierarchy ctx)
    (log ctx ++ [LogInfo fmt args]).

End BaseCtx.

(** ** Generic loops *)

(** A loop over a list whose body can stop abnormally. *)
Fixpoint foldlM {A S : Type} (f : S → A → option S) (s : S) (l : list A) : option S :=
  match l with
  | [] => Some s
  | x :: l' => match f s x with Some s' => foldlM f s' l' | None => None end
  end.

(** A loop over the values of a dictionary that rewrites each value in place
    and whose body can stop abnormally. *)
Definition map_traverse {A : Type} (f : A → option A) (m : gmap IdString A)
  : option (gmap IdString A) :=
  map_fold (λ k x acc, match acc, f x with
                       | Some m', Some y => Some (<[k := y]> m')
                       | _, _ => None
                       end) (Some ∅) m.

(** ** Operations of [BaseCtx] *)

Section Operations.
Context `{arch : Arch}.

(** Modelled from the spec: [getNetByAlias] (declared in the header, not in
    the sources) "resolves through the alias table; undefined/fails if name
    is unknown".  The result is the canonical key and the net stored there. *)
Definition getNetByAlias (alias : IdString) (ctx : BaseCtx) : option (IdString * NetInfo) :=
  match net_aliases ctx !! alias with
  | Some canonical =>
      match nets ctx !! canonical with
      | Some ni => Some (canonical, ni)
      | None => None
      end
  | None => None
  end.

Definition addClock (net : IdString) (freq : float) (ctx : BaseCtx) : option BaseCtx :=
  let cc := {| period := DelayPair_of (getDelayFromNS (int_div_float 1000 freq));
               high := DelayPair_of (getDelayFromNS (int_div_float 500 freq));
               low := DelayPair_of (getDelayFromNS (int_div_float 500 freq)) |} in
  match net_aliases ctx !! net with
  | None =>
      Some (log_warning "net '%s' does not exist in design, ignoring clock constraint\n"
              [ArgStr net] ctx)
  | Some _ =>
      match getNetByAlias net ctx with
      | Some (key, ni) =>
          Some (log_info "constraining clock net '%s' to %.02f MHz\n" [ArgStr net; ArgFloat freq]
                  (set_nets (<[key := set_clkconstr (Some cc) ni]> (nets ctx)) ctx))
      | None => None
      end
  end.

(** [for (int v = lo; v <= hi; v++)]. *)
Definition int_interval (lo hi : Z) : list Z := seqZ lo (hi - lo + 1).

Definition createRectangularRegion (name : IdString) (x0 y0 x1 y1 : Z) (ctx : BaseCtx)
  : BaseCtx :=
  let new_bels :=
    foldl (λ acc x,
      foldl (λ acc y,
        foldl (λ acc b, {[b]} ∪ acc) acc (getBelsByTile x y))
        acc (int_interval y0 y1))
      (∅ : gset BelId) (int_interval x0 x1) in
  let new_region := {| r_name := name; constr_bels := true; constr_pips := false;
                       constr_wires := false; bels := new_bels |} in
  set_region (<[name := Some new_region]> (region ctx)) ctx.

(** [region[region_name].get()]: indexing creates an entry holding a null
    pointer when the name is unknown. *)
Definition region_index_get (region_name : IdString) (ctx : BaseCtx)
  : BaseCtx * option IdString :=
  match region ctx !! region_name with
  | Some (Some _) => (ctx, Some region_name)
  | Some None => (ctx, None)
  | None => (set_region (<[region_name := None]> (region ctx)) ctx, None)
  end.

(** What a call that can stop the program leaves behind: the design it
    returns, or the design as it is when the program stops. *)
Inductive Outcome :=
  | Returns (ctx : BaseCtx)
  | Stops (ctx : BaseCtx).

(** [region[name]->bels.insert(bel)]: the table is indexed as above, and
    dereferencing the null pointer found (or just created) for a name
    without a region stops the program, after the indexing has been done. *)
Definition addBelToRegion_outcome (name : IdString) (b : BelId) (ctx : BaseCtx) : Outcome :=
  let '(ctx1, p) := region_index_get name ctx in
  match p with
  | Some key =>
      match region ctx1 !! key with
      | Some (Some r) =>
          let r' := {| r_name := r_name r; constr_bels := constr_bels r;
                       constr_wires := constr_wires r; constr_pips := constr_pips r;
                       bels := {[b]} ∪ bels r |} in
          Returns (set_region (<[key := Some r']> (region ctx1)) ctx1)
      | _ => Stops ctx1
      end
  | None => Stops ctx1
  end.

(** The call as the other operations see it: a program that has stopped
    runs nothing more, so no design results from it. *)
Definition addBelToRegion (name : IdString) (b : BelId) (ctx : BaseCtx) : option BaseCtx :=
  match addBelToRegion_outcome name b ctx with
  | Returns ctx' => Some ctx'
  | Stops _ => None
  end.

(** The body of [if (cells.count(cell))]. *)
Definition assign_region (cell region_name : IdString) (ctx : BaseCtx) : BaseCtx :=
  match cells ctx !! cell with
  | Some ci =>
      let '(ctx1, r) := region_index_get region_name ctx in
      set_cells (<[cell := set_c_region r ci]> (cells ctx1)) ctx1
  | None => ctx
  end.

(** The recursion of [constrainCellToRegion] follows the hierarchy index,
    which nothing forces to be acyclic: [fuel] bounds its depth, and [None]
    is returned when it runs out. *)
Fixpoint constrainCellToRegion (fuel : nat) (cell region_name : IdString) (ctx : BaseCtx)
  : option BaseCtx :=
  match fuel with
  | O => None
  | S fuel' =>
      let after_hierarchy :=
        match hierarchy ctx !! cell with
        | Some hc =>
            match foldlM (λ c lc, constrainCellToRegion fuel' lc.2 region_name c)
                    ctx (leaf_cells hc) with
            | Some ctx1 =>
                match foldlM (λ c hsc, constrainCellToRegion fuel' hsc.2 region_name c)
                        ctx1 (hier_cells hc) with
                | Some ctx2 => Some (ctx2, true)
                | None => None
                end
            | None => None
            end
        | None => Some (ctx, false)
        end in
      match after_hierarchy with
      | Some (ctx2, matched) =>
          let '(ctx3, matched) :=
            if decide (is_Some (cells ctx2 !! cell))
            then (assign_region cell region_name ctx2, true)
            else (ctx2, matched) in
          if matched : bool then Some ctx3
          else Some (log_warning "No cell matched '%s' when constraining to region '%s'\n"
                       [ArgStr cell; ArgStr region_name] ctx3)
      | None => None
      end
  end.

(** *** Encode: [archInfoToAttributes] *)

(** The loop that joins the names of [constr_children]. *)
Fixpoint join_children (constr : string) (items : list IdString) : string :=
  match items with
  | [] => constr
  | item :: rest =>
      let constr := if decide (constr = EmptyString) then constr else constr +:+ ";" in
      join_children (constr +:+ item) rest
  end.

Definition encode_cell (ci : CellInfo) : CellInfo :=
  let a := c_attrs ci in
  let a :=
    if decide (bel ci ≠ BelId_null) then
      let a := delete "BEL" a in
      let a := <["NEXTPNR_BEL" := Property_string (getBelName (bel ci))]> a in
      <["BEL_STRENGTH" := Property_int (belStrength ci)]> a
    else a in
  let a := if decide (constr_x ci ≠ UNCONSTR)
           then <["CONSTR_X" := Property_int (constr_x ci)]> a else a in
  let a := if decide (constr_y ci ≠ UNCONSTR)
           then <["CONSTR_Y" := Property_int (constr_y ci)]> a else a in
  let a := if decide (constr_z ci ≠ UNCONSTR)
           then <["CONSTR_ABS_Z" := Property_int (if constr_abs_z ci then 1 else 0)]>
                  (<["CONSTR_Z" := Property_int (constr_z ci)]> a)
           else a in
  let a := match constr_parent ci with
           | Some parent => <["CONSTR_PARENT" := Property_string parent]> a
           | None => a
           end in
  let a := match constr_children ci with
           | [] => a
           | items => <["CONSTR_CHILDREN" := Property_string (join_children "" items)]> a
           end in
  set_c_attrs a ci.

(** One round of the loop over [ni->wires]. *)
Definition routing_item (first : bool) (routing : string) (item : WireId * PipMap) : string :=
  let routing := if first then routing else routing +:+ ";" in
  let routing := routing +:+ getWireName item.1 in
  let routing := routing +:+ ";" in
  let routing := if decide (pip item.2 ≠ PipId_null)
                 then routing +:+ getPipName (pip item.2) else routing in
  routing +:+ (";" +:+ to_string (strength item.2)).

Fixpoint routing_loop (items : list (WireId * PipMap)) (routing : string) (first : bool)
  : string :=
  match items with
  | [] => routing
  | item :: rest => routing_loop rest (routing_item first routing item) false
  end.

Definition encode_net (ni : NetInfo) : NetInfo :=
  set_n_attrs (<["ROUTING" := Property_string (routing_loop (wires ni) "" true)]> (n_attrs ni)) ni.

Definition archInfoToAttributes (ctx : BaseCtx) : BaseCtx :=
  set_nets (encode_net <$> nets ctx) (set_cells (encode_cell <$> cells ctx) ctx).

(** *** The binding operations of the architecture *)

(** [net->wires[w] = pm]: the entry of [w] is overwritten in place, or a new
    one is added. *)
Fixpoint wires_set (w : WireId) (pm : PipMap) (l : list (WireId * PipMap))
  : list (WireId * PipMap) :=
  match l with
  | [] => [(w, pm)]
  | (w', pm') :: l' =>
      if decide (w' = w) then (w, pm) :: l' else (w', pm') :: wires_set w pm l'
  end.

Definition wires_erase (w : WireId) (l : list (WireId * PipMap)) : list (WireId * PipMap) :=
  filter (λ e, e.1 ≠ w) l.

(** Modelled from the spec: the architecture's [bindBel], which is not part
    of the sources: the cell's binding becomes the given site at the given
    strength ("binding: optional (physical-site handle, PlaceStrength)"). *)
Definition bindBel (b : BelId) (ci : CellInfo) (s : PlaceStrength) : CellInfo :=
  set_bel b s ci.

(** Modelled from the spec: the architecture's [bindWire], which is not part
    of the sources: "bind the wire directly to the Net", as a binding record
    without a driving pip at the recorded strength. *)
Definition bindWire (w : WireId) (ni : NetInfo) (s : PlaceStrength) : NetInfo :=
  set_wires (wires_set w {| pip := PipId_null; strength := s |} (wires ni)) ni.

(** Modelled from the spec: the architecture's [bindPip], which is not part
    of the sources: "bind the driving pip (which implicitly also claims the
    wire) at the recorded strength"; the wire claimed is the one the pip
    drives. *)
Definition bindPip (p : PipId) (ni : NetInfo) (s : PlaceStrength) : NetInfo :=
  set_wires (wires_set (getPipDstWire p) {| pip := p; strength := s |} (wires ni)) ni.

(** Modelled from the spec: the architecture's [unbindWire], which is not
    part of the sources: the wire leaves the [wires] map of the net that
    holds it ("wires for a Net reflects only currently bound routing"). *)
Definition unbindWire (w : WireId) (ctx : BaseCtx) : BaseCtx :=
  set_nets ((λ ni, set_wires (wires_erase w (wires ni)) ni) <$> nets ctx) ctx.

(** *** Decode: [attributesToArchInfo] *)

(** The loop over the fields of [CONSTR_CHILDREN]. *)
Fixpoint resolve_children (cs : gmap IdString CellInfo) (strs : list string)
  (children : list IdString) : list IdString :=
  match strs with
  | [] => children
  | val :: rest =>
      if decide (is_Some (cs !! val)) then resolve_children cs rest (children ++ [val])
      else resolve_children cs rest children
  end.

(** The part of the loop body after the first look at [CONSTR_PARENT]. *)
Definition decode_constraints (cs : gmap IdString CellInfo) (ci : CellInfo)
  : option CellInfo :=
  ci ← match c_attrs ci !! "CONSTR_X" with
       | Some val => v ← as_int64 val; Some (set_constr_x (to_int v) ci)
       | None => Some ci
       end;
  ci ← match c_attrs ci !! "CONSTR_Y" with
       | Some val => v ← as_int64 val; Some (set_constr_y (to_int v) ci)
       | None => Some ci
       end;
  ci ← match c_attrs ci !! "CONSTR_Z" with
       | Some val => v ← as_int64 val; Some (set_constr_z (to_int v) ci)
       | None => Some ci
       end;
  ci ← match c_attrs ci !! "CONSTR_ABS_Z" with
       | Some val => v ← as_int64 val; Some (set_constr_abs_z (bool_decide (v = 1)) ci)
       | None => Some ci
       end;
  ci ← match c_attrs ci !! "CONSTR_PARENT" with
       | Some val =>
           name ← as_string val;
           match cs !! name with
           | Some _ => Some (set_constr_parent (Some name) ci)
           | None => Some ci
           end
       | None => Some ci
       end;
  match c_attrs ci !! "CONSTR_CHILDREN" with
  | Some val =>
      children ← as_string val;
      Some (set_constr_children
              (resolve_children cs (split_semi children) (constr_children ci)) ci)
  | None => Some ci
  end.

(** The body of the loop over [cells]; [cs] is the registry the names are
    looked up in. *)
Definition decode_cell (cs : gmap IdString CellInfo) (ci : CellInfo) : option CellInfo :=
  ci ← match c_attrs ci !! "NEXTPNR_BEL" with
       | Some val =>
           s ← match c_attrs ci !! "BEL_STRENGTH" with
               | Some sv => as_int64 sv
               | None => Some STRENGTH_USER
               end;
           name ← as_string val;
           Some (bindBel (getBelByNameStr name) ci s)
       | None => Some ci
       end;
  match c_attrs ci !! "CONSTR_PARENT" with
  | Some val =>
      match cs !! str val with
      | Some _ => decode_constraints cs (set_constr_parent (Some (str val)) ci)
      | None => Some ci (* continue *)
      end
  | None => decode_constraints cs ci
  end.

(** [for (size_t i = 0; i < strs.size() / 3; i++)], with [n] rounds left. *)
Fixpoint routing_groups (strs : list string) (n : nat) (i : nat) (ni : NetInfo)
  : option NetInfo :=
  match n with
  | O => Some ni
  | S n' =>
      wire ← strs !! (i * 3)%nat;
      pip_name ← strs !! (i * 3 + 1)%nat;
      s ← strs !! (i * 3 + 2)%nat ≫= stoi;
      let ni' := if decide (pip_name = EmptyString)
                 then bindWire (getWireByNameStr wire) ni s
                 else bindPip (getPipByNameStr pip_name) ni s in
      routing_groups strs n' (S i) ni'
  end.

Definition decode_net (ni : NetInfo) : option NetInfo :=
  match n_attrs ni !! "ROUTING" with
  | Some val =>
      routing ← as_string val;
      let strs := split_semi routing in
      routing_groups strs (length strs / 3)%nat 0%nat ni
  | None => Some ni
  end.

(** [assignArchInfo] re-derives data private to the architecture and leaves
    the state modelled here as it is. *)
Definition attributesToArchInfo (ctx : BaseCtx) : option BaseCtx :=
  cs ← map_traverse (decode_cell (cells ctx)) (cells ctx);
  ns ← map_traverse decode_net (nets ctx);
  Some (set_nets ns (set_cells cs ctx)).

(** *** Registries and binding primitives *)

Definition NetInfo_new (name : IdString) : NetInfo :=
  {| n_name := name; driver := {| pr_cell := None; pr_port := EmptyString |};
     users := []; n_attrs := ∅; wires := []; clkconstr := None |}.

Definition CellInfo_new (name type : IdString) : CellInfo :=
  {| c_name := name; c_type := type; c_ports := ∅; c_attrs := ∅;
     bel := BelId_null; belStrength := STRENGTH_NONE; c_region := None;
     constr_x := UNCONSTR; constr_y := UNCONSTR; constr_z := UNCONSTR;
     constr_abs_z := false; constr_parent := None; constr_children := [] |}.

(** The result is the new state and the handle of the created net. *)
Definition createNet (name : IdString) (ctx : BaseCtx) : option (BaseCtx * IdString) :=
  if decide (is_Some (nets ctx !! name)) then None
  else if decide (is_Some (net_aliases ctx !! name)) then None
  else
    let net := NetInfo_new name in
    let ctx := set_net_aliases (<[name := name]> (net_aliases ctx)) ctx in
    Some (set_nets (<[name := net]> (nets ctx)) ctx, name).

Definition createCell (name type : IdString) (ctx : BaseCtx) : option (BaseCtx * IdString) :=
  if decide (is_Some (cells ctx !! name)) then None
  else Some (set_cells (<[name := CellInfo_new name type]> (cells ctx)) ctx, name).

Definition set_p_net (n : option IdString) (pi : PortInfo) : PortInfo :=
  {| p_name := p_name pi; p_net := n; p_type := p_type pi |}.

Definition attach_port (t : PortType) (ref : PortRef) (ni : NetInfo) : NetInfo :=
  match t with
  | PORT_OUT => set_driver ref ni
  | _ => set_users (users ni ++ [ref]) ni
  end.

(** Modelled from the spec: [connect_port] of design_utils, which is not
    part of the sources: it "wires the named Port to that Net, maintaining
    the Net's driver/sink bookkeeping". *)
Definition connect_port (net : IdString) (cell : IdString) (port : IdString) (ctx : BaseCtx)
  : option BaseCtx :=
  ci ← cells ctx !! cell;
  ni ← nets ctx !! net;
  pi ← c_ports ci !! port;
  let ci' := set_c_ports (<[port := set_p_net (Some net) pi]> (c_ports ci)) ci in
  let ref := {| pr_cell := Some cell; pr_port := port |} in
  let ni' := attach_port (p_type pi) ref ni in
  Some (set_nets (<[net := ni']> (nets ctx)) (set_cells (<[cell := ci']> (cells ctx)) ctx)).

(** Modelled from the spec: [disconnect_port] of design_utils, which is not
    part of the sources: it "detaches the Port from whatever Net it held,
    updating that Net's bookkeeping". *)
Definition disconnect_port (cell : IdString) (port : IdString) (ctx : BaseCtx) : BaseCtx :=
  match cells ctx !! cell with
  | Some ci =>
      match c_ports ci !! port with
      | Some pi =>
          let ci' := set_c_ports (<[port := set_p_net None pi]> (c_ports ci)) ci in
          let ref := {| pr_cell := Some cell; pr_port := port |} in
          let detach ni :=
            let ni := set_users (filter (λ u, u ≠ ref) (users ni)) ni in
            if decide (driver ni = ref)
            then set_driver {| pr_cell := None; pr_port := port |} ni else ni in
          let ns := match p_net pi with
                    | Some net => alter detach net (nets ctx)
                    | None => nets ctx
                    end in
          set_nets ns (set_cells (<[cell := ci']> (cells ctx)) ctx)
      | None => ctx
      end
  | None => ctx
  end.

Definition connectPort (net cell port : IdString) (ctx : BaseCtx) : option BaseCtx :=
  '(key, _) ← getNetByAlias net ctx;
  _ ← cells ctx !! cell;
  connect_port key cell port ctx.

Definition disconnectPort (cell port : IdString) (ctx : BaseCtx) : option BaseCtx :=
  _ ← cells ctx !! cell;
  Some (disconnect_port cell port ctx).

Definition ripupNet (name : IdString) (ctx : BaseCtx) : option BaseCtx :=
  '(_, net_info) ← getNetByAlias name ctx;
  let to_unbind := (λ wire, wire.1) <$> wires net_info in
  Some (foldl (λ c unbind, unbindWire unbind c) ctx to_unbind).

Definition lockNetRouting (name : IdString) (ctx : BaseCtx) : option BaseCtx :=
  '(key, net_info) ← getNetByAlias name ctx;
  let locked := (λ wire, (wire.1, {| pip := pip wire.2; strength := STRENGTH_USER |}))
                  <$> wires net_info in
  Some (set_nets (<[key := set_wires locked net_info]> (nets ctx)) ctx).

(** [cell_info->ports[pin]] creates the port when the cell has none of that
    name. *)
Definition copyBelPorts (cell : IdString) (b : BelId) (ctx : BaseCtx) : option BaseCtx :=
  ci ← cells ctx !! cell;
  let ports := foldl (λ ps pin,
                 let pi := default {| p_name := EmptyString; p_net := None; p_type := PORT_IN |}
                             (ps !! pin) in
                 <[pin := {| p_name := pin; p_net := p_net pi; p_type := getBelPinType b pin |}]> ps)
                 (c_ports ci) (getBelPins b) in
  Some (set_cells (<[cell := set_c_ports ports ci]> (cells ctx)) ctx).

(** *** The operations as a command language *)

Inductive Op :=
  | OpAddClock (net : IdString) (freq : float)
  | OpCreateRectangularRegion (name : IdString) (x0 y0 x1 y1 : Z)
  | OpAddBelToRegion (name : IdString) (b : BelId)
  | OpConstrainCellToRegion (fuel : nat) (cell region_name : IdString)
  | OpArchInfoToAttributes
  | OpAttributesToArchInfo
  | OpCreateNet (name : IdString)
  | OpConnectPort (net cell port : IdString)
  | OpDisconnectPort (cell port : IdString)
  | OpRipupNet (name : IdString)
  | OpLockNetRouting (name : IdString)
  | OpCreateCell (name type : IdString)
  | OpCopyBelPorts (cell : IdString) (b : BelId).

Definition run_op (op : Op) (ctx : BaseCtx) : option BaseCtx :=
  match op with
  | OpAddClock net freq => addClock net freq ctx
  | OpCreateRectangularRegion name x0 y0 x1 y1 =>
      Some (createRectangularRegion name x0 y0 x1 y1 ctx)
  | OpAddBelToRegion name b => addBelToRegion name b ctx
  | OpConstrainCellToRegion fuel cell region_name =>
      constrainCellToRegion fuel cell region_name ctx
  | OpArchInfoToAttributes => Some (archInfoToAttributes ctx)
  | OpAttributesToArchInfo => attributesToArchInfo ctx
  | OpCreateNet name => fst <$> createNet name ctx
  | OpConnectPort net cell port => connectPort net cell port ctx
  | OpDisconnectPort cell port => disconnectPort cell port ctx
  | OpRipupNet name => ripupNet name ctx
  | OpLockNetRouting name => lockNetRouting name ctx
  | OpCreateCell name type => fst <$> createCell name type ctx
  | OpCopyBelPorts cell b => copyBelPorts cell b ctx
  end.

Definition run_ops (ops : list Op) (ctx : BaseCtx) : option BaseCtx :=
  foldlM (λ c op, run_op op c) ctx ops.

Definition empty_ctx : BaseCtx :=
  {| cells := ∅; nets := ∅; net_aliases := ∅; region := ∅; hierarchy := ∅; log := [] |}.

End Operations.

(** * Specification vocabulary

    The predicates and functions in which the properties below are stated. *)

Section Specification.
Context `{arch : Arch}.

(** A string of decimal digits. *)
Fixpoint all_digits (s : string) : Prop :=
  match s with
  | EmptyString => True
  | String c s' => is_Some (digit_of c) ∧ all_digits s'
  end.

(** The three fields that one bound wire contributes to [ROUTING]. *)
Definition routing_pip_name (item : WireId * PipMap) : string :=
  if decide (pip item.2 ≠ PipId_null) then getPipName (pip item.2) else "".

Definition routing_fields (item : WireId * PipMap) : list string :=
  [getWireName item.1; routing_pip_name item; to_string (strength item.2)].

(** Names that can be told apart from the field separator. *)
Definition names_ok (item : WireId * PipMap) : Prop :=
  no_semi (getWireName item.1) ∧ no_semi (getPipName (pip item.2)).

(** The text of one group, and of the groups after the first one. *)
Definition item_str (item : WireId * PipMap) : string :=
  getWireName item.1 +:+ String semicolon
    (routing_pip_name item +:+ String semicolon (to_string (strength item.2))).

Fixpoint rest_str (items : list (WireId * PipMap)) : string :=
  match items with
  | [] => ""
  | item :: rest => String semicolon (item_str item +:+ rest_str rest)
  end.

(** What one group of three fields does to the net. *)
Definition bind_group (wire pip_name : string) (s : PlaceStrength) (ni : NetInfo) : NetInfo :=
  if decide (pip_name = EmptyString)
  then bindWire (getWireByNameStr wire) ni s
  else bindPip (getPipByNameStr pip_name) ni s.

(** The effect of decoding the group that encodes one bound wire. *)
Definition rebind (ni : NetInfo) (item : WireId * PipMap) : NetInfo :=
  bind_group (getWireName item.1) (routing_pip_name item) (strength item.2) ni.

(** An attribute, when present, is of the kind the codec reads it as. *)
Definition kind_ok (a : gmap IdString Property) (key : IdString) (want_string : bool) : Prop :=
  match a !! key with
  | Some p => is_string p = want_string
  | None => True
  end.

Definition codec_typed (a : gmap IdString Property) : Prop :=
  kind_ok a "NEXTPNR_BEL" true ∧ kind_ok a "BEL_STRENGTH" false ∧
  kind_ok a "CONSTR_X" false ∧ kind_ok a "CONSTR_Y" false ∧
  kind_ok a "CONSTR_Z" false ∧ kind_ok a "CONSTR_ABS_Z" false ∧
  kind_ok a "CONSTR_PARENT" true ∧ kind_ok a "CONSTR_CHILDREN" true.

(** The bound wires of a net can be written to [ROUTING] and read back. *)
Definition routable (ni : NetInfo) : Prop :=
  Forall (λ item, names_ok item ∧ int_range (strength item.2)) (wires ni).

Definition well_formed (ctx : BaseCtx) : Prop :=
  map_Forall (λ _ ci, codec_typed (c_attrs ci)) (cells ctx) ∧
  map_Forall (λ _ ni, routable ni) (nets ctx).

(** A freshly created entity set with the same names, the same logical
    structure and the same attributes: every cell and net is newly
    constructed, then given the ports and attributes of the original. *)
Definition fresh_cell (ci : CellInfo) : CellInfo :=
  set_c_attrs (c_attrs ci) (set_c_ports (c_ports ci) (CellInfo_new (c_name ci) (c_type ci))).

Definition fresh_net (ni : NetInfo) : NetInfo :=
  set_n_attrs (n_attrs ni)
    (set_users (users ni) (set_driver (driver ni) (NetInfo_new (n_name ni)))).

Definition fresh_design (ctx : BaseCtx) : BaseCtx :=
  {| cells := fresh_cell <$> cells ctx; nets := fresh_net <$> nets ctx;
     net_aliases := net_aliases ctx; region := region ctx;
     hierarchy := hierarchy ctx; log := [] |}.

(** [encode_cell] as a chain of conditional updates of the attribute map. *)
Definition attr_if (c : bool) (k : IdString) (v : Property) (a : gmap IdString Property)
  : gmap IdString Property :=
  if c then <[k := v]> a else a.

Definition encode_attrs (ci : CellInfo) : gmap IdString Property :=
  let bound := bool_decide (bel ci ≠ BelId_null) in
  attr_if (bool_decide (constr_children ci ≠ [])) "CONSTR_CHILDREN"
    (Property_string (join_children "" (constr_children ci)))
  (attr_if (bool_decide (is_Some (constr_parent ci))) "CONSTR_PARENT"
    (Property_string (default "" (constr_parent ci)))
  (attr_if (bool_decide (constr_z ci ≠ UNCONSTR)) "CONSTR_ABS_Z"
    (Property_int (if constr_abs_z ci then 1 else 0))
  (attr_if (bool_decide (constr_z ci ≠ UNCONSTR)) "CONSTR_Z" (Property_int (constr_z ci))
  (attr_if (bool_decide (constr_y ci ≠ UNCONSTR)) "CONSTR_Y" (Property_int (constr_y ci))
  (attr_if (bool_decide (constr_x ci ≠ UNCONSTR)) "CONSTR_X" (Property_int (constr_x ci))
  (attr_if bound "BEL_STRENGTH" (Property_int (belStrength ci))
  (attr_if bound "NEXTPNR_BEL" (Property_string (getBelName (bel ci)))
  (if bound then delete "BEL" (c_attrs ci) else c_attrs ci)))))))).

(** The kind each codec key is read as. *)
Definition expected_kind (key : IdString) : option bool :=
  if decide (key = "NEXTPNR_BEL") then Some true
  else if decide (key = "BEL_STRENGTH") then Some false
  else if decide (key = "CONSTR_X") then Some false
  else if decide (key = "CONSTR_Y") then Some false
  else if decide (key = "CONSTR_Z") then Some false
  else if decide (key = "CONSTR_ABS_Z") then Some false
  else if decide (key = "CONSTR_PARENT") then Some true
  else if decide (key = "CONSTR_CHILDREN") then Some true
  else None.

(** The coordinate a numeric attribute, when present, gives to a field. *)
Definition coord_of (a : gmap IdString Property) (key : IdString) (old : Z) : Z :=
  match a !! key with
  | Some p => to_int (intval p)
  | None => old
  end.

Definition flag_of (a : gmap IdString Property) (key : IdString) (old : bool) : bool :=
  match a !! key with
  | Some p => bool_decide (intval p = 1)
  | None => old
  end.

(** The complete groups of three fields, taken in order; fewer than three
    remaining fields are left alone. *)
Fixpoint decode_groups (strs : list string) (ni : NetInfo) : option NetInfo :=
  match strs with
  | wire :: pip_name :: s :: rest =>
      stoi s ≫= λ s, decode_groups rest (bind_group wire pip_name s ni)
  | _ => Some ni
  end.

(** The clock constraint that [addClock] derives from a frequency. *)
Definition clock_of (freq : float) : ClockConstraint :=
  {| period := DelayPair_of (getDelayFromNS (int_div_float 1000 freq));
     high := DelayPair_of (getDelayFromNS (int_div_float 500 freq));
     low := DelayPair_of (getDelayFromNS (int_div_float 500 freq)) |}.

(** Every net of the registry is its own canonical alias. *)
Definition alias_canonical (ctx : BaseCtx) : Prop :=
  ∀ n ni, nets ctx !! n = Some ni → net_aliases ctx !! n = Some n.

(** The loop of [copyBelPorts] over the pins. *)
Definition copy_pin (b : BelId) (ps : gmap IdString PortInfo) (pin : IdString)
  : gmap IdString PortInfo :=
  let pi := default {| p_name := EmptyString; p_net := None; p_type := PORT_IN |} (ps !! pin) in
  <[pin := {| p_name := pin; p_net := p_net pi; p_type := getBelPinType b pin |}]> ps.


(** [ctx'] differs from [ctx] at most by the regions of cells, by region
    names added to the table and by a longer log. *)
Definition region_only (ctx ctx' : BaseCtx) : Prop :=
  nets ctx' = nets ctx ∧ net_aliases ctx' = net_aliases ctx ∧
  hierarchy ctx' = hierarchy ctx ∧
  (∀ k, cells ctx' !! k = (λ ci, set_c_region (cells ctx' !! k ≫= c_region) ci)
                            <$> cells ctx !! k) ∧
  region ctx ⊆ region ctx' ∧
  log ctx `prefix_of` log ctx'.

(** The attribute keys that [archInfoToAttributes] may write or erase on a
    cell. *)
Definition encode_keys : list IdString :=
  ["BEL"; "NEXTPNR_BEL"; "BEL_STRENGTH"; "CONSTR_X"; "CONSTR_Y"; "CONSTR_Z";
   "CONSTR_ABS_Z"; "CONSTR_PARENT"; "CONSTR_CHILDREN"].

(** What [attributesToArchInfo] reads from the attributes of a cell: the
    strength of the binding, whether the parent named is missing from the
    registry, and the parent and the children that result. *)
Definition strength_of (a : gmap IdString Property) : PlaceStrength :=
  match a !! "BEL_STRENGTH" with
  | Some sv => intval sv
  | None => STRENGTH_USER
  end.

Definition dangling_parent (cs : gmap IdString CellInfo) (a : gmap IdString Property) : Prop :=
  ∃ val, a !! "CONSTR_PARENT" = Some val ∧ cs !! str val = None.

Definition parent_of (cs : gmap IdString CellInfo) (a : gmap IdString Property)
    (old : option IdString) : option IdString :=
  match a !! "CONSTR_PARENT" with
  | Some val => if cs !! str val is Some _ then Some (str val) else old
  | None => old
  end.

(** The site and strength that the attributes give to a cell. *)
Definition binding_of (a : gmap IdString Property) (old : BelId * PlaceStrength)
  : BelId * PlaceStrength :=
  match a !! "NEXTPNR_BEL" with
  | Some val => (getBelByNameStr (str val), strength_of a)
  | None => old
  end.

Definition children_of (cs : gmap IdString CellInfo) (a : gmap IdString Property)
    (old : list IdString) : list IdString :=
  match a !! "CONSTR_CHILDREN" with
  | Some val => old ++ filter (λ name, is_Some (cs !! name)) (split_semi (str val))
  | None => old
  end.

(** The fields of a cell that the codec never writes. *)
Definition cell_identity (ci : CellInfo)
  : IdString * IdString * gmap IdString PortInfo * gmap IdString Property * option IdString :=
  (c_name ci, c_type ci, c_ports ci, c_attrs ci, c_region ci).

(** The fields of a net other than its bound wires. *)
Definition net_identity (ni : NetInfo) :=
  (n_name ni, driver ni, users ni, n_attrs ni, clkconstr ni).


End Specification.

(** * A small architecture and example designs

    Sites, wires and pips are numbered and named by their number in decimal;
    pip [p] drives wire [p]; delays and frequencies are whole numbers. *)

Definition grid_arch : Arch := {|
  BelId := Z; WireId := Z; PipId := Z; delay_t := Z; float := Z;
  BelId_eq_dec := _; BelId_countable := _; WireId_eq_dec := _; PipId_eq_dec := _;
  BelId_null := -1; WireId_null := -1; PipId_null := -1;
  getBelName := to_string;
  getBelByNameStr := λ s, default (-1) (stoi s);
  getWireName := to_string;
  getWireByNameStr := λ s, default (-1) (stoi s);
  getPipName := to_string;
  getPipByNameStr := λ s, default (-1) (stoi s);
  getPipDstWire := λ p, p;
  getBelsByTile := λ x y, [x + 100 * y];
  getBelPins := λ _, ["I"; "O"];
  getBelPinType := λ _ pin, if decide (pin = "O") then PORT_OUT else PORT_IN;
  getDelayFromNS := λ ns, ns;
  int_div_float := Z.div;
  UNCONSTR := INT_MIN;
  STRENGTH_NONE := 0;
  STRENGTH_USER := 6
|}.

Section ExampleDesigns.
Local Existing Instance grid_arch.

(** A placed cell with all three coordinates constrained. *)
Definition cell_lut : CellInfo :=
  {| c_name := "lut"; c_type := "LUT4"; c_ports := ∅; c_attrs := ∅;
     bel := 3; belStrength := 2; c_region := None;
     constr_x := 1; constr_y := 2; constr_z := 0; constr_abs_z := true;
     constr_parent := None; constr_children := [] |}.

(** A net routed over wire 7 through pip 7 and over wire 9 directly. *)
Definition net_clk : NetInfo :=
  {| n_name := "clk"; driver := {| pr_cell := None; pr_port := "" |}; users := [];
     n_attrs := ∅;
     wires := [(7, {| pip := 7; strength := 3 |}); (9, {| pip := -1; strength := 1 |})];
     clkconstr := None |}.

Definition design : BaseCtx :=
  {| cells := {[ "lut" := cell_lut ]}; nets := {[ "clk" := net_clk ]};
     net_aliases := {[ "clk" := "clk" ]}; region := ∅; hierarchy := ∅; log := [] |}.

(** A net whose [ROUTING] has one complete group and one field left over. *)
Definition net_leftover : NetInfo :=
  {| n_name := "n"; driver := {| pr_cell := None; pr_port := "" |}; users := [];
     n_attrs := {[ "ROUTING" := Property_string "7;;2;9" ]};
     wires := []; clkconstr := None |}.

Definition design_leftover : BaseCtx :=
  {| cells := ∅; nets := {[ "n" := net_leftover ]}; net_aliases := {[ "n" := "n" ]};
     region := ∅; hierarchy := ∅; log := [] |}.

(** A net whose [ROUTING] has four fields, the third of which is no number. *)
Definition net_bad_strength : NetInfo :=
  {| n_name := "n"; driver := {| pr_cell := None; pr_port := "" |}; users := [];
     n_attrs := {[ "ROUTING" := Property_string "w;;x;y" ]};
     wires := []; clkconstr := None |}.

Definition design_bad_strength : BaseCtx :=
  {| cells := ∅; nets := {[ "n" := net_bad_strength ]}; net_aliases := {[ "n" := "n" ]};
     region := ∅; hierarchy := ∅; log := [] |}.



(** A two-level hierarchy over three cells, one of them already in another
    region, and a registered region [R]. *)
Definition region_R : Region :=
  {| r_name := "R"; constr_bels := true; constr_wires := false; constr_pips := false;
     bels := {[ 3 ]} |}.

Definition design_hier : BaseCtx :=
  {| cells := {[ "a" := CellInfo_new "a" "LUT4";
                 "b" := set_c_region (Some "old") (CellInfo_new "b" "LUT4");
                 "c" := CellInfo_new "c" "DFF" ]};
     nets := ∅; net_aliases := ∅;
     region := {[ "R" := Some region_R ]};
     hierarchy := {[ "top" := {| leaf_cells := [("u1", "a"); ("u2", "b")];
                                 hier_cells := [("s", "sub")] |};
                     "sub" := {| leaf_cells := [("u3", "c")]; hier_cells := [] |} ]};
     log := [] |}.

(** The same hierarchy over a design in which only [b] is a cell. *)
Definition design_ghosts : BaseCtx :=
  {| cells := {[ "b" := set_c_region (Some "old") (CellInfo_new "b" "LUT4") ]};
     nets := ∅; net_aliases := ∅;
     region := {[ "R" := Some region_R ]};
     hierarchy := {[ "top" := {| leaf_cells := [("u1", "a"); ("u2", "b")];
                                 hier_cells := [("s", "sub")] |};
                     "sub" := {| leaf_cells := [("u3", "c")]; hier_cells := [] |} ]};
     log := [] |}.

(** A hierarchy entry nested in itself. *)
Definition design_loop : BaseCtx :=
  {| cells := ∅; nets := ∅; net_aliases := ∅; region := ∅;
     hierarchy := {[ "loop" := {| leaf_cells := []; hier_cells := [("self", "loop")] |} ]};
     log := [] |}.

(** The depth of the entries of [design_hier]. *)
Definition hier_rank (name : IdString) : nat :=
  if decide (name = "top") then 2 else if decide (name = "sub") then 1 else 0.

(** A cell to be decoded: a site without a strength, a coordinate, a flag,
    a parent that is there and children of which one is not. *)
Definition cell_mid : CellInfo :=
  set_c_attrs {[ "NEXTPNR_BEL" := Property_string "4";
                 "CONSTR_X" := Property_int 2;
                 "CONSTR_ABS_Z" := Property_int 1;
                 "CONSTR_PARENT" := Property_string "root";
                 "CONSTR_CHILDREN" := Property_string "kid;ghost;kid" ]}
    (CellInfo_new "mid" "LUT4").

Definition design_family : BaseCtx :=
  {| cells := {[ "root" := CellInfo_new "root" "LUT4"; "mid" := cell_mid;
                 "kid" := CellInfo_new "kid" "DFF" ]};
     nets := ∅; net_aliases := ∅; region := ∅; hierarchy := ∅; log := [] |}.

(** A cell with a parent and two children, and nothing in its attributes. *)
Definition cell_branch : CellInfo :=
  set_constr_children ["k1"; "k2"] (set_constr_parent (Some "p") (CellInfo_new "m" "LUT4")).

Definition design_tree : BaseCtx :=
  {| cells := {[ "p" := CellInfo_new "p" "LUT4"; "m" := cell_branch;
                 "k1" := CellInfo_new "k1" "DFF"; "k2" := CellInfo_new "k2" "DFF" ]};
     nets := ∅; net_aliases := ∅; region := ∅; hierarchy := ∅; log := [] |}.



End ExampleDesigns.

(** * Properties *)

(** ** Loops *)

Lemma map_traverse_spec {A : Type} (f : A → option A) (m : gmap IdString A) :
  match map_traverse f m with
  | Some m' => ∀ k, m' !! k = m !! k ≫= f ∧ (m !! k = None ∨ is_Some (m !! k ≫= f))
  | None => ∃ k x, m !! k = Some x ∧ f x = None
  end.
Proof.
  unfold map_traverse.
  apply (map_fold_weak_ind (λ r m, match r with
     | Some m' => ∀ k, m' !! k = m !! k ≫= f ∧ (m !! k = None ∨ is_Some (m !! k ≫= f))
     | None => ∃ k x, m !! k = Some x ∧ f x = None end)).
  - intros k. rewrite !lookup_empty. auto.
  - intros i x m0 r Hi IH. destruct r as [m'|].
    + destruct (f x) as [y|] eqn:Hfx.
      * intros k. destruct (decide (i = k)) as [->|Hne].
        -- rewrite !lookup_insert_eq. simpl. rewrite Hfx. eauto.
        -- rewrite !lookup_insert_ne by done. apply IH.
      * exists i, x. by rewrite lookup_insert_eq.
    + destruct IH as (k & x0 & Hk & Hf). exists k, x0. split; [|done].
      rewrite lookup_insert_ne; [done|]. intros ->. congruence.
Qed.

Lemma map_traverse_Some {A : Type} (f : A → option A) (m : gmap IdString A) :
  (∀ k x, m !! k = Some x → is_Some (f x)) →
  ∃ m', map_traverse f m = Some m' ∧ ∀ k, m' !! k = m !! k ≫= f.
Proof.
  intros Hall. pose proof (map_traverse_spec f m) as H.
  destruct (map_traverse f m) as [m'|].
  - exists m'. split; [done|]. intros k. apply H.
  - destruct H as (k & x & Hk & Hf). destruct (Hall k x Hk) as [y Hy]. congruence.
Qed.

Lemma map_traverse_None {A : Type} (f : A → option A) (m : gmap IdString A) k x :
  m !! k = Some x → f x = None → map_traverse f m = None.
Proof.
  intros Hk Hf. pose proof (map_traverse_spec f m) as H.
  destruct (map_traverse f m) as [m'|]; [|done].
  destruct (H k) as [_ [Hn|[y Hy]]]; [congruence|].
  rewrite Hk in Hy. simpl in Hy. congruence.
Qed.

(** ** Strings *)

Lemma append_cons c (a b : string) : String c a +:+ b = String c (a +:+ b).
Proof. reflexivity. Qed.

Lemma append_nil_r (s : string) : s +:+ "" = s.
Proof. induction s as [|c s IH]; [done|]. by rewrite append_cons, IH. Qed.

Lemma append_assoc (a b c : string) : (a +:+ b) +:+ c = a +:+ (b +:+ c).
Proof. induction a as [|x a IH]; [done|]. by rewrite !append_cons, IH. Qed.

Lemma split_semi_no_semi (s : string) : no_semi s → split_semi s = [s].
Proof.
  induction s as [|c s IH]; simpl; [done|]. intros [Hc Hs].
  destruct (Ascii.eqb_spec c semicolon) as [->|_]; [done|]. by rewrite IH.
Qed.

Lemma split_semi_app (a b : string) :
  no_semi a → split_semi (a +:+ String semicolon b) = a :: split_semi b.
Proof.
  induction a as [|c a IH].
  - intros _. done.
  - intros [Hc Ha]. rewrite append_cons. simpl.
    destruct (Ascii.eqb_spec c semicolon) as [->|_]; [done|].
    by rewrite IH.
Qed.

(** ** Decimal numbers *)

Lemma string_of_uint_digits (d : Decimal.uint) : all_digits (NilEmpty.string_of_uint d).
Proof. induction d; simpl; (split; [by eexists|done]) || done. Qed.

Lemma all_digits_no_semi (s : string) : all_digits s → no_semi s.
Proof.
  induction s as [|c s IH]; simpl; [done|]. intros [[d Hd] Hs]. split; [|auto].
  intros ->. discriminate Hd.
Qed.

Lemma stoi_digits_of_uint_acc (d : Decimal.uint) (acc : positive) :
  stoi_digits (Zpos acc) (NilEmpty.string_of_uint d) = Zpos (Pos.of_uint_acc d acc).
Proof.
  revert acc. induction d; intros acc; simpl; [done|..];
    (etrans; [|apply IHd]); f_equal; lia.
Qed.

Lemma stoi_digits_of_uint (d : Decimal.uint) :
  stoi_digits 0 (NilEmpty.string_of_uint d) = Z.of_N (Pos.of_uint d).
Proof.
  induction d; simpl; [done|done|..]; apply (stoi_digits_of_uint_acc d).
Qed.

Lemma stoi_digits_to_uint (p : positive) :
  stoi_digits 0 (NilEmpty.string_of_uint (Pos.to_uint p)) = Zpos p.
Proof. by rewrite stoi_digits_of_uint, DecimalPos.Unsigned.of_to. Qed.

Lemma string_of_uint_head (d : Decimal.uint) :
  d ≠ Decimal.Nil →
  ∃ c s, NilEmpty.string_of_uint d = String c s ∧ is_Some (digit_of c).
Proof. destruct d; [done|..]; intros _; simpl; by eexists _, _. Qed.

Lemma digit_not_space c : is_Some (digit_of c) → is_space c = false.
Proof.
  unfold digit_of, is_space. intros [d Hd].
  destruct (_ && _) eqn:E in Hd; [|done]. lia.
Qed.

Lemma stoi_to_string (z : Z) : int_range z → stoi (to_string z) = Some z.
Proof.
  intros Hz. assert (Hb : int_rangeb z = true) by (unfold int_range, int_rangeb in *; lia).
  destruct z as [|p|p]; [done|..].
  - destruct (string_of_uint_head (Pos.to_uint p)) as (c & s & Hs & Hc);
      [apply DecimalPos.Unsigned.to_uint_nonnil|].
    pose proof (stoi_digits_to_uint p) as Hv.
    unfold stoi, to_string. rewrite Hs in *. simpl skip_space.
    rewrite (digit_not_space c Hc).
    assert (c ≠ "-"%char ∧ c ≠ "+"%char) as [Hm Hp].
    { destruct Hc as [d Hd]. split; intros ->; discriminate Hd. }
    replace (match String c s with
             | String "-"%char r => (true, r)
             | String "+"%char r => (false, r)
             | _ => (false, String c s) end) with (false, String c s).
    2:{ destruct c as [[] [] [] [] [] [] [] []]; done. }
    simpl starts_with_digit. rewrite bool_decide_eq_true_2 by done.
    rewrite Hv. by rewrite Hb.
  - destruct (string_of_uint_head (Pos.to_uint p)) as (c & s & Hs & Hc);
      [apply DecimalPos.Unsigned.to_uint_nonnil|].
    pose proof (stoi_digits_to_uint p) as Hv.
    unfold stoi, to_string. rewrite Hs in *. simpl.
    rewrite bool_decide_eq_true_2 by done.
    change (match digit_of c with
            | Some d => stoi_digits (10 * 0 + d) s
            | None => 0 end) with (stoi_digits 0 (String c s)).
    rewrite Hv. change (- Z.pos p) with (Z.neg p). by rewrite Hb.
Qed.

Lemma to_string_no_semi (z : Z) : no_semi (to_string z).
Proof.
  destruct z as [|p|p]; simpl.
  - done.
  - apply all_digits_no_semi, string_of_uint_digits.
  - split; [done|]. apply all_digits_no_semi, string_of_uint_digits.
Qed.

Lemma to_int_id (z : Z) : int_range z → to_int z = z.
Proof.
  unfold int_range, INT_MIN, INT_MAX, to_int. intros Hz.
  rewrite Z.mod_small; lia.
Qed.

(** ** The routing string *)

Section Routing.
Context `{arch : Arch}.

Lemma routing_item_true r item : routing_item true r item = r +:+ item_str item.
Proof.
  unfold routing_item, item_str, routing_pip_name.
  destruct (decide (pip item.2 ≠ PipId_null)); rewrite ?append_assoc; try done.
Qed.

Lemma routing_item_false r item :
  routing_item false r item = r +:+ String semicolon (item_str item).
Proof.
  unfold routing_item, item_str, routing_pip_name.
  destruct (decide (pip item.2 ≠ PipId_null)); rewrite ?append_assoc; try done.
Qed.

Lemma routing_loop_false items r : routing_loop items r false = r +:+ rest_str items.
Proof.
  revert r. induction items as [|item items IH]; intros r; simpl.
  - by rewrite append_nil_r.
  - rewrite IH, routing_item_false, append_assoc. by rewrite append_cons.
Qed.

Lemma routing_loop_true item items :
  routing_loop (item :: items) "" true = item_str item +:+ rest_str items.
Proof. simpl. by rewrite routing_loop_false, routing_item_true. Qed.

Lemma routing_pip_name_no_semi item : names_ok item → no_semi (routing_pip_name item).
Proof. intros [_ H]. unfold routing_pip_name. by case_decide. Qed.

Lemma item_str_app item (r : string) :
  item_str item +:+ r
  = getWireName item.1 +:+ String semicolon
      (routing_pip_name item +:+ String semicolon (to_string (strength item.2) +:+ r)).
Proof.
  unfold item_str. by rewrite append_assoc, append_cons, append_assoc, append_cons.
Qed.

Lemma split_semi_items item items :
  names_ok item → Forall names_ok items →
  split_semi (item_str item +:+ rest_str items)
  = routing_fields item ++ concat (routing_fields <$> items).
Proof.
  intros Hitem Hitems. revert item Hitem.
  induction Hitems as [|item' items Hitem' Hitems IH]; intros item Hitem.
  - rewrite item_str_app. cbn [rest_str]. rewrite append_nil_r.
    rewrite split_semi_app by apply Hitem.
    rewrite split_semi_app by by apply routing_pip_name_no_semi.
    by rewrite split_semi_no_semi by apply to_string_no_semi.
  - rewrite item_str_app. cbn [rest_str].
    rewrite split_semi_app by apply Hitem.
    rewrite split_semi_app by by apply routing_pip_name_no_semi.
    rewrite split_semi_app by apply to_string_no_semi.
    by rewrite IH.
Qed.

Lemma split_semi_routing_loop item items :
  Forall names_ok (item :: items) →
  split_semi (routing_loop (item :: items) "" true)
  = concat (routing_fields <$> item :: items).
Proof.
  intros H. apply Forall_cons in H as [??].
  rewrite routing_loop_true. by apply split_semi_items.
Qed.

Lemma length_concat_routing_fields items :
  length (concat (routing_fields <$> items)) = (3 * length items)%nat.
Proof.
  induction items as [|item items IH]; [done|].
  rewrite fmap_cons. cbn [concat]. rewrite length_app, IH. simpl length. lia.
Qed.

End Routing.

(** ** Decoding the routing fields *)

Section RoutingDecode.
Context `{arch : Arch}.

Lemma routing_groups_ext strs strs' n i ni :
  (∀ j, (j < 3 * (i + n))%nat → strs !! j = strs' !! j) →
  routing_groups strs n i ni = routing_groups strs' n i ni.
Proof.
  revert i ni. induction n as [|n IH]; intros i ni Hext; [done|].
  cbn [routing_groups].
  rewrite <- !Hext by lia.
  apply option_bind_ext; [intros wire|done].
  apply option_bind_ext; [intros pip_name|done].
  apply option_bind_ext; [intros s|done].
  apply IH. intros j Hj. apply Hext. lia.
Qed.

Lemma routing_groups_shift a b c strs n i ni :
  routing_groups (a :: b :: c :: strs) n (S i) ni = routing_groups strs n i ni.
Proof.
  revert i ni. induction n as [|n IH]; intros i ni; [done|].
  cbn [routing_groups].
  replace (S i * 3)%nat with (S (S (S (i * 3)))) by lia.
  replace (S (S (S (i * 3))) + 1)%nat with (S (S (S (i * 3 + 1)))) by lia.
  replace (S (S (S (i * 3))) + 2)%nat with (S (S (S (i * 3 + 2)))) by lia.
  cbn [lookup list_lookup].
  apply option_bind_ext; [intros wire|done].
  apply option_bind_ext; [intros pip_name|done].
  apply option_bind_ext; [intros s|done].
  apply IH.
Qed.

Lemma routing_groups_cons a b c strs n ni :
  routing_groups (a :: b :: c :: strs) (S n) 0 ni
  = stoi c ≫= λ s, routing_groups strs n 0 (bind_group a b s ni).
Proof.
  cbn [routing_groups]. cbn. destruct (stoi c) as [s|]; [|done]. cbn.
  unfold bind_group. apply routing_groups_shift.
Qed.

Lemma routing_groups_fields items rest ni :
  Forall (λ item, int_range (strength item.2)) items →
  routing_groups (concat (routing_fields <$> items) ++ rest) (length items) 0 ni
  = Some (foldl rebind ni items).
Proof.
  intros Hitems. revert ni. induction Hitems as [|item items Hitem Hitems IH]; intros ni.
  - done.
  - rewrite fmap_cons. cbn [concat routing_fields length app].
    rewrite routing_groups_cons, stoi_to_string by done. cbn. apply IH.
Qed.

(** Fields beyond the last complete group are never read. *)
Lemma routing_groups_take strs ni :
  routing_groups strs (length strs / 3) 0 ni
  = routing_groups (take (3 * (length strs / 3)) strs) (length strs / 3) 0 ni.
Proof.
  apply routing_groups_ext. intros j Hj. by rewrite lookup_take_lt by lia.
Qed.

End RoutingDecode.

(** ** The codec on one cell *)

Section Codec.
Context `{arch : Arch}.

Lemma encode_cell_attrs ci : c_attrs (encode_cell ci) = encode_attrs ci.
Proof.
  unfold encode_cell, encode_attrs, attr_if.
  destruct (decide (bel ci ≠ BelId_null));
    [rewrite (bool_decide_eq_true_2 (bel ci ≠ BelId_null)) by done
    |rewrite (bool_decide_eq_false_2 (bel ci ≠ BelId_null)) by done];
  (destruct (decide (constr_x ci ≠ UNCONSTR));
    [rewrite (bool_decide_eq_true_2 (constr_x ci ≠ UNCONSTR)) by done
    |rewrite (bool_decide_eq_false_2 (constr_x ci ≠ UNCONSTR)) by done]);
  (destruct (decide (constr_y ci ≠ UNCONSTR));
    [rewrite (bool_decide_eq_true_2 (constr_y ci ≠ UNCONSTR)) by done
    |rewrite (bool_decide_eq_false_2 (constr_y ci ≠ UNCONSTR)) by done]);
  (destruct (decide (constr_z ci ≠ UNCONSTR));
    [rewrite (bool_decide_eq_true_2 (constr_z ci ≠ UNCONSTR)) by done
    |rewrite (bool_decide_eq_false_2 (constr_z ci ≠ UNCONSTR)) by done]);
  destruct (constr_parent ci), (constr_children ci); reflexivity.
Qed.

Lemma attr_if_ne c k v a key : k ≠ key → attr_if c k v a !! key = a !! key.
Proof. intros. destruct c; simpl; [by rewrite lookup_insert_ne|done]. Qed.

Lemma attr_if_true k v a : attr_if true k v a !! k = Some v.
Proof. apply lookup_insert_eq. Qed.

Ltac attr_lookup :=
  rewrite encode_cell_attrs; unfold encode_attrs;
  repeat (rewrite attr_if_ne by done).

Lemma encode_cell_bel ci :
  bel ci ≠ BelId_null →
  c_attrs (encode_cell ci) !! "NEXTPNR_BEL" = Some (Property_string (getBelName (bel ci))) ∧
  c_attrs (encode_cell ci) !! "BEL_STRENGTH" = Some (Property_int (belStrength ci)).
Proof.
  intros H. split; attr_lookup; rewrite (bool_decide_eq_true_2 _ H); apply attr_if_true.
Qed.

Lemma encode_cell_x ci :
  constr_x ci ≠ UNCONSTR →
  c_attrs (encode_cell ci) !! "CONSTR_X" = Some (Property_int (constr_x ci)).
Proof. intros H. attr_lookup. rewrite (bool_decide_eq_true_2 _ H). apply attr_if_true. Qed.

Lemma encode_cell_y ci :
  constr_y ci ≠ UNCONSTR →
  c_attrs (encode_cell ci) !! "CONSTR_Y" = Some (Property_int (constr_y ci)).
Proof. intros H. attr_lookup. rewrite (bool_decide_eq_true_2 _ H). apply attr_if_true. Qed.

Lemma encode_cell_z ci :
  constr_z ci ≠ UNCONSTR →
  c_attrs (encode_cell ci) !! "CONSTR_Z" = Some (Property_int (constr_z ci)) ∧
  c_attrs (encode_cell ci) !! "CONSTR_ABS_Z"
  = Some (Property_int (if constr_abs_z ci then 1 else 0)).
Proof.
  intros H. split; attr_lookup; rewrite (bool_decide_eq_true_2 _ H); apply attr_if_true.
Qed.

Lemma encode_cell_no_parent ci :
  constr_parent ci = None → c_attrs ci !! "CONSTR_PARENT" = None →
  c_attrs (encode_cell ci) !! "CONSTR_PARENT" = None.
Proof.
  intros Hp Ha. attr_lookup. rewrite Hp. rewrite bool_decide_eq_false_2 by by intros [??].
  unfold attr_if at 1. repeat (rewrite attr_if_ne by done).
  destruct (bool_decide _); [by rewrite lookup_delete_ne|done].
Qed.

Lemma kind_ok_insert a k v key b :
  kind_ok a key b → (k = key → is_string v = b) → kind_ok (<[k := v]> a) key b.
Proof.
  unfold kind_ok. intros Ha Hv. destruct (decide (k = key)) as [->|Hne].
  - rewrite lookup_insert_eq. auto.
  - by rewrite lookup_insert_ne.
Qed.

Lemma kind_ok_delete a k key b : kind_ok a key b → kind_ok (delete k a) key b.
Proof.
  unfold kind_ok. intros Ha. destruct (decide (k = key)) as [->|Hne].
  - by rewrite lookup_delete_eq.
  - by rewrite lookup_delete_ne.
Qed.

Lemma codec_typed_attr_if c a k v :
  codec_typed a → (∀ b, expected_kind k = Some b → is_string v = b) →
  codec_typed (attr_if c k v a).
Proof.
  intros H Hv. destruct c; [|done]. simpl.
  destruct H as (Hbel & Hstr & Hx & Hy & Hz & Habs & Hpar & Hch).
  repeat split; (apply kind_ok_insert; [done|]); intros ->; by apply Hv.
Qed.

Lemma codec_typed_delete a k : codec_typed a → codec_typed (delete k a).
Proof.
  intros (Hbel & Hstr & Hx & Hy & Hz & Habs & Hpar & Hch).
  repeat split; by apply kind_ok_delete.
Qed.

Lemma encode_cell_typed ci :
  codec_typed (c_attrs ci) → codec_typed (c_attrs (encode_cell ci)).
Proof.
  intros H. rewrite encode_cell_attrs. unfold encode_attrs.
  repeat (apply codec_typed_attr_if; [|by intros b [= <-]]).
  destruct (bool_decide _); [by apply codec_typed_delete|done].
Qed.

Ltac decode_step key H :=
  let p := fresh "p" in
  let E := fresh "E" in
  unfold kind_ok in H; revert H;
  destruct (_ !! key) as [p|] eqn:E; intros H;
  [ unfold as_int64, as_string; rewrite H | ];
  cbn [mbind option_bind c_attrs set_constr_x set_constr_y set_constr_z
       set_constr_abs_z set_constr_parent set_constr_children].

Lemma decode_constraints_spec cs ci :
  let a := c_attrs ci in
  kind_ok a "CONSTR_X" false → kind_ok a "CONSTR_Y" false →
  kind_ok a "CONSTR_Z" false → kind_ok a "CONSTR_ABS_Z" false →
  kind_ok a "CONSTR_PARENT" true → kind_ok a "CONSTR_CHILDREN" true →
  ∃ ci', decode_constraints cs ci = Some ci' ∧
    bel ci' = bel ci ∧ belStrength ci' = belStrength ci ∧
    constr_x ci' = coord_of a "CONSTR_X" (constr_x ci) ∧
    constr_y ci' = coord_of a "CONSTR_Y" (constr_y ci) ∧
    constr_z ci' = coord_of a "CONSTR_Z" (constr_z ci) ∧
    constr_abs_z ci' = flag_of a "CONSTR_ABS_Z" (constr_abs_z ci).
Proof.
  intros a Hx Hy Hz Habs Hpar Hch. subst a.
  unfold decode_constraints, coord_of, flag_of.
  decode_step "CONSTR_X" Hx; decode_step "CONSTR_Y" Hy; decode_step "CONSTR_Z" Hz;
    decode_step "CONSTR_ABS_Z" Habs; decode_step "CONSTR_PARENT" Hpar;
    try (destruct (cs !! _));
    cbn [mbind option_bind c_attrs set_constr_x set_constr_y set_constr_z
         set_constr_abs_z set_constr_parent set_constr_children];
    decode_step "CONSTR_CHILDREN" Hch;
    eexists; (split; [reflexivity|]); done.
Qed.

Lemma kind_ok_Some a key b p : kind_ok a key b → a !! key = Some p → is_string p = b.
Proof. unfold kind_ok. intros H E. by rewrite E in H. Qed.

Lemma decode_cell_Some cs ci : codec_typed (c_attrs ci) → is_Some (decode_cell cs ci).
Proof.
  intros (Hbel & Hstr & Hx & Hy & Hz & Habs & Hpar & Hch). unfold decode_cell.
  assert (∃ b s, match c_attrs ci !! "NEXTPNR_BEL" with
                 | Some val =>
                     s ← match c_attrs ci !! "BEL_STRENGTH" with
                         | Some sv => as_int64 sv
                         | None => Some STRENGTH_USER
                         end;
                     name ← as_string val;
                     Some (bindBel (getBelByNameStr name) ci s)
                 | None => Some ci
                 end = Some (set_bel b s ci)) as (b & s & ->).
  { destruct (c_attrs ci !! "NEXTPNR_BEL") as [val|] eqn:Eb.
    - unfold as_string. rewrite (kind_ok_Some _ _ _ _ Hbel Eb).
      destruct (c_attrs ci !! "BEL_STRENGTH") as [sv|] eqn:Es.
      + unfold as_int64. rewrite (kind_ok_Some _ _ _ _ Hstr Es). by eexists _, _.
      + by eexists _, _.
    - exists (bel ci), (belStrength ci). by destruct ci. }
  cbn [mbind option_bind c_attrs set_bel].
  destruct (c_attrs ci !! "CONSTR_PARENT") as [val|].
  - destruct (cs !! str val); [|done].
    by destruct (decode_constraints_spec cs (set_constr_parent (Some (str val)) (set_bel b s ci)))
      as (ci' & -> & _).
  - by destruct (decode_constraints_spec cs (set_bel b s ci)) as (ci' & -> & _).
Qed.

Lemma Property_int_coord a key v old :
  a !! key = Some (Property_int v) → int_range v → coord_of a key old = v.
Proof. unfold coord_of. intros -> Hv. by apply to_int_id. Qed.

(** Encoding a placed and constrained cell, then decoding its attributes on
    a newly constructed cell, gives back the placement and the coordinates. *)
Lemma decode_cell_roundtrip cs ci :
  codec_typed (c_attrs ci) →
  bel ci ≠ BelId_null →
  getBelByNameStr (getBelName (bel ci)) = bel ci →
  constr_x ci ≠ UNCONSTR → constr_y ci ≠ UNCONSTR → constr_z ci ≠ UNCONSTR →
  int_range (constr_x ci) → int_range (constr_y ci) → int_range (constr_z ci) →
  constr_parent ci = None → c_attrs ci !! "CONSTR_PARENT" = None →
  ∃ ci', decode_cell cs (fresh_cell (encode_cell ci)) = Some ci' ∧
    bel ci' = bel ci ∧ belStrength ci' = belStrength ci ∧
    constr_x ci' = constr_x ci ∧ constr_y ci' = constr_y ci ∧
    constr_z ci' = constr_z ci ∧ constr_abs_z ci' = constr_abs_z ci.
Proof.
  intros Hty Hbel Hname Hx Hy Hz Rx Ry Rz Hpar Hapar.
  pose proof (encode_cell_typed ci Hty) as (_ & _ & Tx & Ty & Tz & Tabs & Tpar & Tch).
  destruct (encode_cell_bel ci Hbel) as [Eb Es].
  pose proof (encode_cell_x ci Hx) as Ex. pose proof (encode_cell_y ci Hy) as Ey.
  destruct (encode_cell_z ci Hz) as [Ez Eabs].
  pose proof (encode_cell_no_parent ci Hpar Hapar) as Ep.
  unfold decode_cell. set (fc := fresh_cell (encode_cell ci)).
  change (c_attrs fc) with (c_attrs (encode_cell ci)).
  rewrite Eb, Es. cbn [as_int64 as_string Property_int Property_string is_string intval str
                       mbind option_bind].
  unfold bindBel. rewrite Hname.
  change (c_attrs (set_bel _ _ fc)) with (c_attrs (encode_cell ci)).
  rewrite Ep.
  destruct (decode_constraints_spec cs (set_bel (bel ci) (belStrength ci) fc))
    as (ci' & -> & Hb & Hs & Hcx & Hcy & Hcz & Hca); try done.
  exists ci'. split; [done|].
  change (c_attrs (set_bel _ _ fc)) with (c_attrs (encode_cell ci)) in *.
  rewrite Hb, Hs, Hcx, Hcy, Hcz, Hca.
  rewrite (Property_int_coord _ _ _ _ Ex Rx), (Property_int_coord _ _ _ _ Ey Ry),
    (Property_int_coord _ _ _ _ Ez Rz).
  unfold flag_of. rewrite Eabs. cbn [intval Property_int].
  repeat split; try done. by destruct (constr_abs_z ci).
Qed.

(** *** The codec on one net *)

Lemma decode_net_encoded ni ni0 :
  routable ni → n_attrs ni0 = n_attrs (encode_net ni) →
  decode_net ni0 = Some (foldl rebind ni0 (wires ni)).
Proof.
  intros Hr Ha. unfold decode_net. rewrite Ha. unfold encode_net.
  cbn [n_attrs set_n_attrs]. rewrite lookup_insert_eq.
  cbn [as_string Property_string is_string str mbind option_bind].
  assert (Forall names_ok (wires ni)) as Hnames by (eapply Forall_impl; [exact Hr|]; by intros ? [??]).
  assert (Forall (λ item, int_range (strength item.2)) (wires ni)) as Hs
    by (eapply Forall_impl; [exact Hr|]; by intros ? [??]).
  destruct (wires ni) as [|item items] eqn:Ew; [reflexivity|].
  rewrite split_semi_routing_loop by done.
  rewrite length_concat_routing_fields.
  replace (3 * length (item :: items) / 3)%nat with (length (item :: items))
    by (symmetry; rewrite Nat.mul_comm; apply Nat.div_mul; lia).
  rewrite <- (app_nil_r (concat _)). by apply routing_groups_fields.
Qed.

(** *** Whole designs *)

Lemma attributesToArchInfo_Some ctx :
  map_Forall (λ _ ci, is_Some (decode_cell (cells ctx) ci)) (cells ctx) →
  map_Forall (λ _ ni, is_Some (decode_net ni)) (nets ctx) →
  ∃ ctx', attributesToArchInfo ctx = Some ctx' ∧
    (∀ k, cells ctx' !! k = cells ctx !! k ≫= decode_cell (cells ctx)) ∧
    (∀ k, nets ctx' !! k = nets ctx !! k ≫= decode_net) ∧
    net_aliases ctx' = net_aliases ctx ∧ region ctx' = region ctx ∧
    hierarchy ctx' = hierarchy ctx ∧ log ctx' = log ctx.
Proof.
  intros Hc Hn. unfold attributesToArchInfo.
  destruct (map_traverse_Some (decode_cell (cells ctx)) (cells ctx)) as (cs & -> & Hcs);
    [apply Hc|].
  destruct (map_traverse_Some decode_net (nets ctx)) as (ns & -> & Hns); [apply Hn|].
  eexists. split; [reflexivity|]. done.
Qed.

Lemma cells_fresh_encoded ctx k :
  cells (fresh_design (archInfoToAttributes ctx)) !! k
  = (λ ci, fresh_cell (encode_cell ci)) <$> cells ctx !! k.
Proof.
  cbn [cells fresh_design archInfoToAttributes set_nets set_cells].
  rewrite !lookup_fmap. by destruct (cells ctx !! k).
Qed.

Lemma nets_fresh_encoded ctx k :
  nets (fresh_design (archInfoToAttributes ctx)) !! k
  = (λ ni, fresh_net (encode_net ni)) <$> nets ctx !! k.
Proof.
  cbn [nets fresh_design archInfoToAttributes set_nets set_cells].
  rewrite !lookup_fmap. by destruct (nets ctx !! k).
Qed.

Lemma roundtrip_design ctx :
  well_formed ctx →
  ∃ ctx', attributesToArchInfo (fresh_design (archInfoToAttributes ctx)) = Some ctx' ∧
    (∀ k, cells ctx' !! k
          = cells ctx !! k ≫= λ ci,
              decode_cell (cells (fresh_design (archInfoToAttributes ctx)))
                (fresh_cell (encode_cell ci))) ∧
    (∀ k, nets ctx' !! k
          = (λ ni, foldl rebind (fresh_net (encode_net ni)) (wires ni)) <$> nets ctx !! k).
Proof.
  intros [Hcells Hnets].
  destruct (attributesToArchInfo_Some (fresh_design (archInfoToAttributes ctx)))
    as (ctx' & Hdec & Hcs & Hns & _).
  - intros k ci. rewrite cells_fresh_encoded.
    destruct (cells ctx !! k) as [c|] eqn:Ek; [|done].
    intros [= <-]. apply decode_cell_Some. apply encode_cell_typed. by apply (Hcells k).
  - intros k ni. rewrite nets_fresh_encoded.
    destruct (nets ctx !! k) as [n|] eqn:Ek; [|done].
    intros [= <-].
    rewrite (decode_net_encoded n (fresh_net (encode_net n)) (Hnets k n Ek) eq_refl).
    by eexists.
  - exists ctx'. split; [done|]. split.
    + intros k. rewrite Hcs, cells_fresh_encoded. by destruct (cells ctx !! k).
    + intros k. rewrite Hns, nets_fresh_encoded.
      destruct (nets ctx !! k) as [n|] eqn:Ek; [|done].
      cbn. by rewrite (decode_net_encoded n (fresh_net (encode_net n)) (Hnets k n Ek) eq_refl).
Qed.

End Codec.

(** * The attribute codec *)

Section CodecClaims.
Context `{arch : Arch}.

(** C1. A cell that is bound to a site at some strength, whose coordinate
    constraints [constr_x], [constr_y], [constr_z] (with [constr_abs_z]) are
    set, and which has neither a parent nor a [CONSTR_PARENT] attribute:
    after [archInfoToAttributes], decoding the attributes with
    [attributesToArchInfo] in a freshly created design with the same names
    completes and gives the cell of that name the same site, the same
    strength and the same four coordinate values.  The architecture is
    assumed to find the site again by its name, and the design to be
    [well_formed]. *)
Theorem cell_binding_roundtrip (ctx : BaseCtx) (n : IdString) (c : CellInfo) :
  well_formed ctx →
  cells ctx !! n = Some c →
  bel c ≠ BelId_null →
  getBelByNameStr (getBelName (bel c)) = bel c →
  constr_x c ≠ UNCONSTR → constr_y c ≠ UNCONSTR → constr_z c ≠ UNCONSTR →
  int_range (constr_x c) → int_range (constr_y c) → int_range (constr_z c) →
  constr_parent c = None → c_attrs c !! "CONSTR_PARENT" = None →
  ∃ ctx' c',
    attributesToArchInfo (fresh_design (archInfoToAttributes ctx)) = Some ctx' ∧
    cells ctx' !! n = Some c' ∧
    bel c' = bel c ∧ belStrength c' = belStrength c ∧
    constr_x c' = constr_x c ∧ constr_y c' = constr_y c ∧
    constr_z c' = constr_z c ∧ constr_abs_z c' = constr_abs_z c.
Proof.
  intros Hwf Hc Hbel Hname Hx Hy Hz Rx Ry Rz Hpar Hapar.
  destruct (roundtrip_design ctx Hwf) as (ctx' & Hdec & Hcs & _).
  destruct (decode_cell_roundtrip (cells (fresh_design (archInfoToAttributes ctx))) c)
    as (c' & Hc' & Hfields); try done.
  { destruct Hwf as [Hcells _]. by apply (Hcells n). }
  exists ctx', c'. split; [done|]. split; [|done].
  rewrite Hcs, Hc. exact Hc'.
Qed.

(** C2. A net whose [wires] map holds exactly a wire [w1] driven through the
    pip [p1] at strength [s1] and a wire [w2] without a pip at strength [s2],
    in either iteration order: after [archInfoToAttributes], decoding with
    [attributesToArchInfo] in a freshly created design with the same names
    completes and leaves the net of that name with exactly these two wire
    bindings.  The architecture is assumed to find the pip and the wire
    again by their names, and to give the pip a name. *)
Theorem net_routing_roundtrip (ctx : BaseCtx) (k : IdString) (ni : NetInfo)
    (w1 w2 : WireId) (p1 : PipId) (s1 s2 : PlaceStrength) :
  let bound := [(w1, {| pip := p1; strength := s1 |});
                (w2, {| pip := PipId_null; strength := s2 |})] in
  well_formed ctx →
  nets ctx !! k = Some ni →
  wires ni ≡ₚ bound →
  w1 ≠ w2 → p1 ≠ PipId_null → getPipDstWire p1 = w1 →
  getPipName p1 ≠ "" →
  getPipByNameStr (getPipName p1) = p1 →
  getWireByNameStr (getWireName w2) = w2 →
  ∃ ctx' ni',
    attributesToArchInfo (fresh_design (archInfoToAttributes ctx)) = Some ctx' ∧
    nets ctx' !! k = Some ni' ∧
    wires ni' ≡ₚ bound.
Proof.
  intros bound Hwf Hk Hperm Hne Hp1 Hdst Hpname Hpip Hwire.
  destruct (roundtrip_design ctx Hwf) as (ctx' & Hdec & _ & Hns).
  exists ctx'. eexists. split; [done|]. split; [by rewrite Hns, Hk|].
  assert (routing_pip_name (w1, {| pip := p1; strength := s1 |}) = getPipName p1) as E1.
  { unfold routing_pip_name. cbn [snd pip]. by rewrite decide_True. }
  assert (routing_pip_name (w2, {| pip := PipId_null; strength := s2 |}) = "") as E2.
  { unfold routing_pip_name. cbn [snd pip]. rewrite decide_False; [done|]. by intros ?. }
  symmetry in Hperm. apply Permutation_length_2_inv in Hperm as [->| ->];
    unfold rebind, bind_group; cbn [foldl fst snd pip strength];
    rewrite E1, E2, (decide_False _ _ Hpname), decide_True by done;
    rewrite Hpip, Hwire; unfold bindPip, bindWire; rewrite Hdst;
    cbn [wires set_wires fresh_net set_n_attrs set_users set_driver NetInfo_new
         wires_set].
  - rewrite decide_False by done. done.
  - rewrite decide_False by done. apply perm_swap.
Qed.

(** C4. For a net with at least one bound wire, the [ROUTING] string that
    [archInfoToAttributes] writes splits at [;] into exactly three fields
    per bound wire: for each wire in turn, its name, the name of its pip or
    the empty string, and its strength in decimal.  Wire and pip names are
    assumed not to contain the separator. *)
Theorem routing_three_fields_per_wire (ctx : BaseCtx) (k : IdString) (ni : NetInfo) :
  nets ctx !! k = Some ni →
  wires ni ≠ [] →
  Forall names_ok (wires ni) →
  ∃ ni' routing,
    nets (archInfoToAttributes ctx) !! k = Some ni' ∧
    n_attrs ni' !! "ROUTING" = Some (Property_string routing) ∧
    length (split_semi routing) = (3 * length (wires ni))%nat ∧
    split_semi routing = concat (routing_fields <$> wires ni).
Proof.
  intros Hk Hne Hnames.
  exists (encode_net ni), (routing_loop (wires ni) "" true). split.
  { cbn [nets archInfoToAttributes set_nets set_cells]. by rewrite lookup_fmap, Hk. }
  split.
  { unfold encode_net. cbn [n_attrs set_n_attrs]. apply lookup_insert_eq. }
  destruct (wires ni) as [|item items]; [done|].
  rewrite split_semi_routing_loop by done.
  split; [apply length_concat_routing_fields|done].
Qed.

Lemma routing_groups_decode_groups n strs ni :
  n = (length strs / 3)%nat → routing_groups strs n 0 ni = decode_groups strs ni.
Proof.
  revert strs ni. induction n as [|n IH]; intros strs ni Hn.
  - destruct strs as [|a [|b [|c rest]]]; try done.
    exfalso. change (length (a :: b :: c :: rest)) with (1 * 3 + length rest)%nat in Hn.
    rewrite Nat.div_add_l in Hn by done. lia.
  - destruct strs as [|a [|b [|c rest]]]; try done.
    change (length (a :: b :: c :: rest)) with (1 * 3 + length rest)%nat in Hn.
    rewrite Nat.div_add_l in Hn by done.
    rewrite routing_groups_cons. cbn [decode_groups].
    apply option_bind_ext; [|done]. intros s. apply IH. lia.
Qed.

Lemma decode_groups_take strs ni :
  decode_groups (take (3 * (length strs / 3)) strs) ni = decode_groups strs ni.
Proof.
  rewrite <- (routing_groups_decode_groups (length strs / 3)).
  - rewrite <- routing_groups_take. by apply routing_groups_decode_groups.
  - rewrite length_take.
    pose proof (Nat.Div0.mul_div_le (length strs) 3).
    rewrite Nat.min_l by lia. rewrite Nat.mul_comm. by rewrite Nat.div_mul.
Qed.

(** C10, as the code has it.  For a net whose [ROUTING] attribute is a
    string, whatever the number of its fields: decoding processes the
    complete groups of three fields in order and nothing else, so that the
    one or two fields left over (the single empty field of the empty string
    included) are never read and bind nothing; it stops abnormally exactly
    when the third field of a complete group is not a number that
    [std::stoi] accepts.  When [attributesToArchInfo] completes, the net is
    the result of these groups. *)
Theorem routing_leftover_fields_ignored (ctx : BaseCtx) (k : IdString) (ni : NetInfo)
    (val : Property) :
  nets ctx !! k = Some ni →
  n_attrs ni !! "ROUTING" = Some val →
  is_string val = true →
  let strs := split_semi (str val) in
  decode_net ni = decode_groups (take (3 * (length strs / 3)) strs) ni ∧
  (length strs < 3 → decode_net ni = Some ni)%nat ∧
  (decode_net ni = None → attributesToArchInfo ctx = None) ∧
  (∀ ctx', attributesToArchInfo ctx = Some ctx' → nets ctx' !! k = decode_net ni).
Proof.
  intros Hk Hval Hs strs.
  assert (decode_net ni = decode_groups strs ni) as Hdec.
  { unfold decode_net. rewrite Hval. unfold as_string. rewrite Hs.
    cbn [mbind option_bind]. by apply routing_groups_decode_groups. }
  split; [by rewrite decode_groups_take|]. split.
  { rewrite Hdec. intros Hlen. by destruct strs as [|a [|b [|c rest]]]; [..|simpl in Hlen; lia]. }
  split.
  - intros Hnone. unfold attributesToArchInfo.
    destruct (map_traverse _ (cells ctx)); [|done]. cbn [mbind option_bind].
    by rewrite (map_traverse_None decode_net (nets ctx) k ni).
  - intros ctx'. unfold attributesToArchInfo.
    destruct (map_traverse _ (cells ctx)) as [cs|]; [|done]. cbn [mbind option_bind].
    pose proof (map_traverse_spec decode_net (nets ctx)) as Hspec.
    destruct (map_traverse decode_net (nets ctx)) as [ns|]; [|done].
    intros [= <-]. cbn [nets set_nets]. destruct (Hspec k) as [-> _]. by rewrite Hk.
Qed.

(** A pass that completes leaves the log and the tables other than [cells]
    and [nets] as they were. *)
Lemma attributesToArchInfo_frame ctx ctx' :
  attributesToArchInfo ctx = Some ctx' →
  log ctx' = log ctx ∧ net_aliases ctx' = net_aliases ctx ∧
  region ctx' = region ctx ∧ hierarchy ctx' = hierarchy ctx ∧
  (∀ k, cells ctx' !! k = cells ctx !! k ≫= decode_cell (cells ctx)) ∧
  (∀ k, nets ctx' !! k = nets ctx !! k ≫= decode_net).
Proof.
  unfold attributesToArchInfo.
  pose proof (map_traverse_spec (decode_cell (cells ctx)) (cells ctx)) as Hc.
  destruct (map_traverse _ (cells ctx)) as [cs|]; [|done]. cbn [mbind option_bind].
  pose proof (map_traverse_spec decode_net (nets ctx)) as Hn.
  destruct (map_traverse decode_net (nets ctx)) as [ns|]; [|done].
  intros [= <-]. repeat split; try done.
  - intros k. apply Hc.
  - intros k. apply Hn.
Qed.


End CodecClaims.

(** * Regions and hierarchy *)

Section RegionClaims.
Context `{arch : Arch}.

Lemma assign_region_registered cell R r ctx :
  region ctx !! R = Some (Some r) →
  assign_region cell R ctx
  = match cells ctx !! cell with
    | Some ci => set_cells (<[cell := set_c_region (Some R) ci]> (cells ctx)) ctx
    | None => ctx
    end.
Proof. intros HR. unfold assign_region, region_index_get. by rewrite HR. Qed.

Lemma assign_region_frame cell R r ctx :
  region ctx !! R = Some (Some r) →
  hierarchy (assign_region cell R ctx) = hierarchy ctx ∧
  region (assign_region cell R ctx) = region ctx ∧
  log (assign_region cell R ctx) = log ctx ∧
  net_aliases (assign_region cell R ctx) = net_aliases ctx ∧
  nets (assign_region cell R ctx) = nets ctx ∧
  (∀ c, is_Some (cells (assign_region cell R ctx) !! c) ↔ is_Some (cells ctx !! c)) ∧
  (∀ c ci, cells ctx !! c = Some ci → c_region ci = Some R →
           ∃ ci', cells (assign_region cell R ctx) !! c = Some ci' ∧ c_region ci' = Some R) ∧
  (∀ ci, cells ctx !! cell = Some ci →
         cells (assign_region cell R ctx) !! cell = Some (set_c_region (Some R) ci)).
Proof.
  intros HR. rewrite (assign_region_registered _ _ _ _ HR).
  destruct (cells ctx !! cell) as [ci|] eqn:Ec; [|by repeat split; eauto].
  cbn [hierarchy region log net_aliases nets cells set_cells].
  repeat split; try done.
  - destruct (decide (cell = c)) as [->|Hne].
    + rewrite lookup_insert_eq, Ec. done.
    + by rewrite lookup_insert_ne.
  - destruct (decide (cell = c)) as [->|Hne].
    + rewrite lookup_insert_eq, Ec. done.
    + by rewrite lookup_insert_ne.
  - intros c ci0 Hc Hr. destruct (decide (cell = c)) as [->|Hne].
    + rewrite lookup_insert_eq. by eexists.
    + rewrite lookup_insert_ne by done. by eexists.
  - intros ci0 [= <-]. by rewrite lookup_insert_eq.
Qed.

Lemma constrain_unfold fuel' cell region_name ctx :
  constrainCellToRegion (S fuel') cell region_name ctx
  = match match hierarchy ctx !! cell with
          | Some hc =>
              match foldlM (λ c lc, constrainCellToRegion fuel' lc.2 region_name c)
                      ctx (leaf_cells hc) with
              | Some ctx1 =>
                  match foldlM (λ c hsc, constrainCellToRegion fuel' hsc.2 region_name c)
                          ctx1 (hier_cells hc) with
                  | Some ctx2 => Some (ctx2, true)
                  | None => None
                  end
              | None => None
              end
          | None => Some (ctx, false)
          end with
    | Some (ctx2, matched) =>
        let '(ctx3, matched) :=
          if decide (is_Some (cells ctx2 !! cell))
          then (assign_region cell region_name ctx2, true)
          else (ctx2, matched) in
        if matched : bool then Some ctx3
        else Some (log_warning "No cell matched '%s' when constraining to region '%s'\n"
                     [ArgStr cell; ArgStr region_name] ctx3)
    | None => None
    end.
Proof. reflexivity. Qed.

(** A leaf cell that is no hierarchy entry: one round of the recursion. *)
Lemma constrain_leaf fuel cell R ctx :
  hierarchy ctx !! cell = None → is_Some (cells ctx !! cell) →
  constrainCellToRegion (S fuel) cell R ctx = Some (assign_region cell R ctx).
Proof.
  intros Hh Hc. cbn [constrainCellToRegion]. rewrite Hh. by rewrite decide_True.
Qed.

Lemma assign_region_alter cell R r ctx :
  region ctx !! R = Some (Some r) →
  assign_region cell R ctx
  = set_cells (alter (set_c_region (Some R)) cell (cells ctx)) ctx.
Proof.
  intros HR. rewrite (assign_region_registered _ _ _ _ HR).
  destruct (cells ctx !! cell) as [ci|] eqn:E.
  - f_equal. apply map_eq. intros k. destruct (decide (cell = k)) as [<-|Hne].
    + by rewrite lookup_insert_eq, lookup_alter_eq, E.
    + by rewrite lookup_insert_ne, lookup_alter_ne.
  - destruct ctx as [cs ns na rg hi lg]. cbn in *. unfold set_cells. cbn. f_equal.
    apply map_eq. intros k. destruct (decide (cell = k)) as [<-|Hne].
    + by rewrite lookup_alter_eq, E.
    + by rewrite lookup_alter_ne.
Qed.

Lemma lookup_foldr_alter {A : Type} (f : A → A) (l : list IdString)
    (m : gmap IdString A) (k : IdString) :
  (∀ x, f (f x) = f x) →
  foldr (alter f) m l !! k = if decide (k ∈ l) then f <$> m !! k else m !! k.
Proof.
  intros Hf. induction l as [|x l IH]; cbn [foldr].
  - by rewrite decide_False by apply not_elem_of_nil.
  - rewrite lookup_alter. destruct (decide (x = k)) as [->|Hne].
    + rewrite decide_True by apply list_elem_of_here. rewrite IH.
      destruct (decide (k ∈ l)); [|done].
      destruct (m !! k); cbn; [by rewrite Hf|done].
    + rewrite IH. apply decide_ext. rewrite elem_of_cons.
      split; [by right|]. by intros [->|?].
Qed.

(** One call on a name that is no hierarchy entry: the cell of that name,
    if there is one, gets the region; otherwise the warning is logged. *)
Lemma constrain_plain_name fuel x R r ctx :
  hierarchy ctx !! x = None → region ctx !! R = Some (Some r) →
  ∃ ctx',
    constrainCellToRegion (S fuel) x R ctx = Some ctx' ∧
    cells ctx' = alter (set_c_region (Some R)) x (cells ctx) ∧
    log ctx' = log ctx ++ (if decide (cells ctx !! x = None)
                           then [LogWarning "No cell matched '%s' when constraining to region '%s'\n"
                                   [ArgStr x; ArgStr R]]
                           else []) ∧
    region ctx' = region ctx ∧ hierarchy ctx' = hierarchy ctx ∧
    nets ctx' = nets ctx ∧ net_aliases ctx' = net_aliases ctx.
Proof.
  intros Hh HR. rewrite constrain_unfold, Hh.
  destruct (decide (is_Some (cells ctx !! x))) as [[ci Hc]|Hc].
  - eexists. split; [reflexivity|]. rewrite (assign_region_alter _ _ _ _ HR).
    cbn [cells log region hierarchy nets net_aliases set_cells].
    rewrite decide_False by (by rewrite Hc). by rewrite app_nil_r.
  - assert (cells ctx !! x = None) as Hn.
    { destruct (cells ctx !! x); [|done]. exfalso. by apply Hc. }
    eexists. split; [reflexivity|].
    cbn [cells log region hierarchy nets net_aliases log_warning].
    rewrite decide_True by done. repeat split; try done.
    apply map_eq. intros k. destruct (decide (x = k)) as [<-|Hne].
    + by rewrite lookup_alter_eq, Hn.
    + by rewrite lookup_alter_ne.
Qed.

(** The end of a call on a hierarchy entry, after its children: the cell of
    the same name, if there is one, gets the region, and nothing is logged. *)
Lemma constrain_entry_end cell R r ctx2 :
  region ctx2 !! R = Some (Some r) →
  ∃ ctx',
    (let '(ctx3, matched) :=
       if decide (is_Some (cells ctx2 !! cell))
       then (assign_region cell R ctx2, true)
       else (ctx2, true) in
     if matched : bool then Some ctx3
     else Some (log_warning "No cell matched '%s' when constraining to region '%s'\n"
                  [ArgStr cell; ArgStr R] ctx3)) = Some ctx' ∧
    cells ctx' = alter (set_c_region (Some R)) cell (cells ctx2) ∧
    log ctx' = log ctx2 ∧
    region ctx' = region ctx2 ∧ hierarchy ctx' = hierarchy ctx2 ∧
    nets ctx' = nets ctx2 ∧ net_aliases ctx' = net_aliases ctx2.
Proof.
  intros HR. destruct (decide (is_Some (cells ctx2 !! cell))) as [Hc|Hc].
  - eexists. split; [reflexivity|]. by rewrite (assign_region_alter _ _ _ _ HR).
  - exists ctx2. split; [reflexivity|]. repeat split; try done.
    apply map_eq. intros k. destruct (decide (cell = k)) as [<-|Hne].
    + rewrite lookup_alter_eq. destruct (cells ctx2 !! cell); [|done].
      exfalso. by apply Hc.
    + by rewrite lookup_alter_ne.
Qed.

(** C5. With a hierarchy entry [H] whose leaf children are [c1], [c2] and
    whose only nested entry is [H2], itself with the single leaf child [c3],
    and [R] a registered region, [constrainCellToRegion(H, R)] completes.
    Every cell named [c1], [c2], [c3] (or [H2], [H]) then has region [R],
    whatever region it had, with its other fields as before, and no other
    cell is touched.  The names are visited in the order [c1], [c2], then
    [H2] and with it [c3]: a child that names no cell is reported when it is
    visited, so the warnings in the log are those of the missing names among
    [c1; c2; c3] in exactly this order.  When all three are cells nothing is
    logged.  A call on a name that is neither a hierarchy entry nor a cell
    appends one warning to the log and changes nothing else. *)
Theorem constrain_hierarchy_to_region (ctx : BaseCtx) (H H2 c1 c2 c3 l1 l2 l3 lh R : IdString)
    (r : Region) (fuel : nat) :
  hierarchy ctx !! H
    = Some {| leaf_cells := [(l1, c1); (l2, c2)]; hier_cells := [(lh, H2)] |} →
  hierarchy ctx !! H2 = Some {| leaf_cells := [(l3, c3)]; hier_cells := [] |} →
  hierarchy ctx !! c1 = None → hierarchy ctx !! c2 = None → hierarchy ctx !! c3 = None →
  region ctx !! R = Some (Some r) →
  (3 ≤ fuel)%nat →
  let warning := λ name : IdString,
    LogWarning "No cell matched '%s' when constraining to region '%s'\n"
      [ArgStr name; ArgStr R] in
  (∃ ctx',
     constrainCellToRegion fuel H R ctx = Some ctx' ∧
     (∀ k, cells ctx' !! k
           = if decide (k ∈ [c1; c2; c3; H2; H])
             then set_c_region (Some R) <$> cells ctx !! k
             else cells ctx !! k) ∧
     log ctx' = log ctx ++ (warning <$> filter (λ c, cells ctx !! c = None) [c1; c2; c3]) ∧
     (is_Some (cells ctx !! c1) → is_Some (cells ctx !! c2) → is_Some (cells ctx !! c3) →
        (∀ c, c ∈ [c1; c2; c3] → ∃ ci, cells ctx' !! c = Some ci ∧ c_region ci = Some R) ∧
        log ctx' = log ctx) ∧
     region ctx' = region ctx ∧ hierarchy ctx' = hierarchy ctx ∧
     nets ctx' = nets ctx ∧ net_aliases ctx' = net_aliases ctx) ∧
  (∀ x, hierarchy ctx !! x = None → cells ctx !! x = None →
     ∃ ctx',
       constrainCellToRegion fuel x R ctx = Some ctx' ∧
       log ctx' = log ctx ++ [warning x] ∧
       cells ctx' = cells ctx ∧ region ctx' = region ctx ∧ hierarchy ctx' = hierarchy ctx ∧
       nets ctx' = nets ctx ∧ net_aliases ctx' = net_aliases ctx).
Proof.
  intros HH HH2 Hh1 Hh2 Hh3 HR Hfuel warning.
  destruct fuel as [|[|[|fuel]]]; try lia.
  split.
  2:{ intros x Hhx Hcx.
      destruct (constrain_plain_name (S (S fuel)) x R r ctx Hhx HR)
        as (ctx' & Hrun & Hcells & Hlog & Hreg & Hhier & Hnets & Hal).
      exists ctx'. rewrite decide_True in Hlog by done.
      repeat split; try done. rewrite Hcells.
      apply map_eq. intros k. destruct (decide (x = k)) as [<-|Hne].
      - by rewrite lookup_alter_eq, Hcx.
      - by rewrite lookup_alter_ne. }
  (* the leaf children of H *)
  destruct (constrain_plain_name (S fuel) c1 R r ctx Hh1 HR)
    as (ctx1 & E1 & C1 & L1 & R1 & H1 & N1 & A1).
  destruct (constrain_plain_name (S fuel) c2 R r ctx1)
    as (ctx2 & E2 & C2 & L2 & R2 & H2' & N2 & A2); [by rewrite H1|by rewrite R1|].
  (* the nested entry H2 and its leaf child *)
  destruct (constrain_plain_name fuel c3 R r ctx2)
    as (ctx3 & E3 & C3 & L3 & R3 & H3 & N3 & A3);
    [by rewrite H2', H1|by rewrite R2, R1|].
  destruct (constrain_entry_end H2 R r ctx3)
    as (ctx4 & E4 & C4 & L4 & R4 & H4 & N4 & A4); [by rewrite R3, R2, R1|].
  assert (constrainCellToRegion (S (S fuel)) H2 R ctx2 = Some ctx4) as E24.
  { rewrite constrain_unfold. rewrite H2', H1, HH2. cbn [leaf_cells hier_cells foldlM snd].
    rewrite E3. exact E4. }
  destruct (constrain_entry_end H R r ctx4)
    as (ctx5 & E5 & C5 & L5 & R5 & H5 & N5 & A5); [by rewrite R4, R3, R2, R1|].
  assert (∀ k, cells ctx5 !! k
               = if decide (k ∈ [c1; c2; c3; H2; H])
                 then set_c_region (Some R) <$> cells ctx !! k
                 else cells ctx !! k) as Hcells.
  { intros k. rewrite C5, C4, C3, C2, C1.
    change (alter _ H (alter _ H2 (alter _ c3 (alter _ c2 (alter _ c1 (cells ctx))))))
      with (foldr (alter (set_c_region (Some R))) (cells ctx) [H; H2; c3; c2; c1]).
    rewrite lookup_foldr_alter by (by intros []).
    apply decide_ext. rewrite !elem_of_cons, !elem_of_nil. tauto. }
  assert (log ctx5
          = log ctx ++ (warning <$> filter (λ c, cells ctx !! c = None) [c1; c2; c3]))
    as Hlog.
  { rewrite L5, L4, L3, L2, L1.
    rewrite (decide_ext (cells ctx1 !! c2 = None) (cells ctx !! c2 = None))
      by (by rewrite C1, lookup_alter_None).
    rewrite (decide_ext (cells ctx2 !! c3 = None) (cells ctx !! c3 = None))
      by (by rewrite C2, C1, !lookup_alter_None).
    rewrite !filter_cons, filter_nil. fold (warning c1) (warning c2) (warning c3).
    destruct (decide (cells ctx !! c1 = None)), (decide (cells ctx !! c2 = None)),
      (decide (cells ctx !! c3 = None)); cbn [fmap list_fmap];
      by rewrite <- ?app_assoc, ?app_nil_r. }
  exists ctx5. split.
  { rewrite constrain_unfold. rewrite HH. cbn [leaf_cells hier_cells foldlM snd].
    rewrite E1, E2, E24. exact E5. }
  split; [exact Hcells|]. split; [exact Hlog|]. split.
  - intros [ci1 K1] [ci2 K2] [ci3 K3]. split.
    + intros c Hc. rewrite Hcells.
      rewrite decide_True by (revert Hc; rewrite !elem_of_cons, !elem_of_nil; tauto).
      repeat (apply elem_of_cons in Hc as [->|Hc]); [..|by apply elem_of_nil in Hc].
      * rewrite K1. by eexists.
      * rewrite K2. by eexists.
      * rewrite K3. by eexists.
    + rewrite Hlog, !filter_cons, filter_nil.
      rewrite !decide_False by (by rewrite ?K1, ?K2, ?K3). cbn. by rewrite app_nil_r.
  - by rewrite R5, R4, R3, R2, R1, H5, H4, H3, H2', H1, N5, N4, N3, N2, N1,
      A5, A4, A3, A2, A1.
Qed.

(** C9, as the code has it.  [addBelToRegion(name, site)]: when a region is
    registered under [name], the site joins its membership set and nothing
    else changes.  When none is, the program stops on the null pointer that
    indexing the table yields, and no design results from the call.  At
    that point a name that was no key of the table has become one, holding
    a null pointer; the table is as it was only when the name held a null
    pointer already.  Nothing else has changed. *)
Theorem addBelToRegion_known_or_fails (ctx : BaseCtx) (name : IdString) (b : BelId) :
  (∀ r, region ctx !! name = Some (Some r) →
     ∃ ctx' r',
       addBelToRegion_outcome name b ctx = Returns ctx' ∧
       addBelToRegion name b ctx = Some ctx' ∧
       region ctx' !! name = Some (Some r') ∧
       (∀ x, x ∈ bels r' ↔ x = b ∨ x ∈ bels r) ∧
       r_name r' = r_name r ∧ constr_bels r' = constr_bels r ∧
       constr_wires r' = constr_wires r ∧ constr_pips r' = constr_pips r ∧
       (∀ other, other ≠ name → region ctx' !! other = region ctx !! other) ∧
       cells ctx' = cells ctx ∧ nets ctx' = nets ctx ∧
       net_aliases ctx' = net_aliases ctx ∧ hierarchy ctx' = hierarchy ctx ∧
       log ctx' = log ctx) ∧
  ((∀ r, region ctx !! name ≠ Some (Some r)) →
     addBelToRegion name b ctx = None ∧
     ∃ stopped,
       addBelToRegion_outcome name b ctx = Stops stopped ∧
       region stopped !! name = Some None ∧
       (∀ other, other ≠ name → region stopped !! other = region ctx !! other) ∧
       (region ctx !! name = None →
          region stopped = <[name := None]> (region ctx) ∧ region stopped ≠ region ctx) ∧
       (region ctx !! name = Some None → stopped = ctx) ∧
       cells stopped = cells ctx ∧ nets stopped = nets ctx ∧
       net_aliases stopped = net_aliases ctx ∧ hierarchy stopped = hierarchy ctx ∧
       log stopped = log ctx).
Proof.
  split.
  - intros r Hr. unfold addBelToRegion, addBelToRegion_outcome, region_index_get.
    rewrite Hr, Hr. eexists _, _.
    split; [reflexivity|]. split; [reflexivity|].
    cbn [region set_region cells nets net_aliases hierarchy log].
    split; [apply lookup_insert_eq|]. cbn [bels r_name constr_bels constr_wires constr_pips].
    repeat split; try done.
    + intros Hx. apply elem_of_union in Hx as [Hx|Hx]; [left|by right].
      by apply elem_of_singleton in Hx.
    + intros [->|Hx]; apply elem_of_union; [left|by right]. by apply elem_of_singleton.
    + intros other Hne. by rewrite lookup_insert_ne.
  - intros Hr. unfold addBelToRegion, addBelToRegion_outcome, region_index_get.
    destruct (region ctx !! name) as [[r|]|] eqn:E; [by destruct (Hr r)| |].
    + split; [done|]. exists ctx. repeat split; try done.
    + split; [done|]. eexists. split; [reflexivity|].
      cbn [region set_region cells nets net_aliases hierarchy log].
      split; [apply lookup_insert_eq|]. split.
      { intros other Hne. by rewrite lookup_insert_ne. }
      split.
      { intros _. split; [done|]. intros Heq.
        assert (<[name := None]> (region ctx) !! name = region ctx !! name) as Hk
          by (by rewrite Heq).
        rewrite lookup_insert_eq, E in Hk. discriminate. }
      split; [done|]. done.
Qed.

End RegionClaims.

(** * Nets: aliases, clocks, rip-up *)

Section NetClaims.
Context `{arch : Arch}.

(** C8. [addClock(net, freq)]: for a name that the alias table does not
    hold, a warning is logged and nothing else changes; for a name that
    resolves to a net, that net gets the clock constraint with period
    [getDelayFromNS(1000 / freq)] and high and low [getDelayFromNS(500 /
    freq)] in place of any it had, and every other net is left as it is. *)
Theorem addClock_warns_or_constrains (ctx : BaseCtx) (net : IdString) (freq : float) :
  (net_aliases ctx !! net = None →
     ∃ ctx',
       addClock net freq ctx = Some ctx' ∧
       nets ctx' = nets ctx ∧ cells ctx' = cells ctx ∧
       net_aliases ctx' = net_aliases ctx ∧ region ctx' = region ctx ∧
       hierarchy ctx' = hierarchy ctx ∧
       log ctx' = log ctx ++
         [LogWarning "net '%s' does not exist in design, ignoring clock constraint\n"
            [ArgStr net]]) ∧
  (∀ canonical ni,
     net_aliases ctx !! net = Some canonical → nets ctx !! canonical = Some ni →
     ∃ ctx' ni',
       addClock net freq ctx = Some ctx' ∧
       nets ctx' !! canonical = Some ni' ∧
       clkconstr ni' = Some (clock_of freq) ∧
       n_name ni' = n_name ni ∧ driver ni' = driver ni ∧ users ni' = users ni ∧
       n_attrs ni' = n_attrs ni ∧ wires ni' = wires ni ∧
       (∀ other, other ≠ canonical → nets ctx' !! other = nets ctx !! other) ∧
       cells ctx' = cells ctx ∧ net_aliases ctx' = net_aliases ctx).
Proof.
  split.
  - intros Hnone. unfold addClock. rewrite Hnone. by eexists.
  - intros canonical ni Ha Hn. unfold addClock, getNetByAlias. rewrite Ha, Hn.
    eexists _, _. split; [reflexivity|].
    cbn [nets cells net_aliases log_info set_nets].
    split; [apply lookup_insert_eq|]. repeat split; try done.
    intros other Hne. by rewrite lookup_insert_ne.
Qed.

(** *** Rip-up *)

Lemma wires_erase_all (ws : list WireId) (l : list (WireId * PipMap)) :
  (∀ e, e ∈ l → e.1 ∈ ws) → foldl (λ acc w, wires_erase w acc) l ws = [].
Proof.
  revert l. induction ws as [|w ws IH]; intros l Hl.
  - destruct l as [|e l]; [done|]. specialize (Hl e ltac:(by left)).
    by apply elem_of_nil in Hl.
  - cbn [foldl]. apply IH. intros e He. unfold wires_erase in He.
    apply list_elem_of_filter in He as [Hne He]. specialize (Hl e He).
    apply elem_of_cons in Hl as [?|?]; [done|done].
Qed.

Lemma unbindWire_all ws ctx :
  foldl (λ c unbind, unbindWire unbind c) ctx ws
  = set_nets ((λ ni, set_wires (foldl (λ acc w, wires_erase w acc) (wires ni) ws) ni)
                <$> nets ctx) ctx.
Proof.
  revert ctx. induction ws as [|w ws IH]; intros ctx.
  - cbn [foldl]. destruct ctx as [cs ns al rg hi lg]. unfold set_nets. cbn. f_equal.
    rewrite <- (map_fmap_id ns) at 1. apply map_fmap_ext. by intros ? [] ?.
  - cbn [foldl]. rewrite IH. unfold unbindWire, set_nets. cbn. f_equal.
    rewrite <- map_fmap_compose. apply map_fmap_ext. by intros ? [] ?.
Qed.

(** C6. For a name that resolves through the alias table, [ripupNet] takes
    the list of the wires in the net's [wires] map and unbinds each of them
    in turn; afterwards the net has no bound wire, while the driver and the
    users of every net and all cells, with their ports, are as before. *)
Theorem ripupNet_unbinds_all (ctx : BaseCtx) (name canonical : IdString) (ni : NetInfo) :
  getNetByAlias name ctx = Some (canonical, ni) →
  ∃ ctx' ni',
    ripupNet name ctx = Some ctx' ∧
    ctx' = foldl (λ c w, unbindWire w c) ctx ((λ wire, wire.1) <$> wires ni) ∧
    nets ctx' !! canonical = Some ni' ∧ wires ni' = [] ∧
    (∀ j n, nets ctx !! j = Some n →
       ∃ n', nets ctx' !! j = Some n' ∧ driver n' = driver n ∧ users n' = users n ∧
             n_name n' = n_name n ∧ n_attrs n' = n_attrs n ∧ clkconstr n' = clkconstr n) ∧
    cells ctx' = cells ctx ∧ net_aliases ctx' = net_aliases ctx.
Proof.
  intros Hres. unfold ripupNet. rewrite Hres. cbn [mbind option_bind].
  unfold getNetByAlias in Hres.
  destruct (net_aliases ctx !! name) as [c|]; [|done].
  destruct (nets ctx !! c) as [n|] eqn:Hn; [|done]. injection Hres as -> ->.
  eexists _, _. split; [reflexivity|]. split; [reflexivity|].
  rewrite unbindWire_all. cbn [nets cells net_aliases set_nets].
  split; [by rewrite lookup_fmap, Hn|]. cbn [wires set_wires].
  split.
  { apply wires_erase_all. intros e He. apply list_elem_of_fmap. by exists e. }
  split; [|done].
  intros j n Hj. rewrite lookup_fmap, Hj. by eexists.
Qed.

(** *** The alias table *)

Lemma foldlM_preserves {A S B : Type} (f : S → A → option S) (g : S → B) l :
  (∀ s x s', f s x = Some s' → g s' = g s) →
  ∀ s s', foldlM f s l = Some s' → g s' = g s.
Proof.
  intros Hf. induction l as [|x l IH]; intros s s'; cbn [foldlM].
  - by intros [= ->].
  - destruct (f s x) as [s1|] eqn:E; [|done]. intros H.
    rewrite (IH _ _ H). by apply Hf in E.
Qed.

Lemma assign_region_aliases cell R ctx :
  net_aliases (assign_region cell R ctx) = net_aliases ctx.
Proof.
  unfold assign_region, region_index_get.
  destruct (cells ctx !! cell); [|done]. by destruct (region ctx !! R) as [[]|].
Qed.

Lemma constrainCellToRegion_aliases fuel cell R ctx ctx' :
  constrainCellToRegion fuel cell R ctx = Some ctx' → net_aliases ctx' = net_aliases ctx.
Proof.
  revert cell ctx ctx'. induction fuel as [|fuel IH]; intros cell ctx ctx'; [done|].
  rewrite constrain_unfold.
  assert (∀ l c c', foldlM (λ c (lc : IdString * IdString),
                      constrainCellToRegion fuel lc.2 R c) c l = Some c' →
                    net_aliases c' = net_aliases c) as Hfold.
  { intros l. apply foldlM_preserves. intros s x s'. apply IH. }
  destruct (hierarchy ctx !! cell) as [hc|].
  - destruct (foldlM _ ctx (leaf_cells hc)) as [ctx1|] eqn:E1; [|done].
    destruct (foldlM _ ctx1 (hier_cells hc)) as [ctx2|] eqn:E2; [|done].
    apply Hfold in E1, E2.
    destruct (decide (is_Some (cells ctx2 !! cell))); intros [= <-];
      rewrite ?assign_region_aliases; congruence.
  - destruct (decide (is_Some (cells ctx !! cell))); intros [= <-];
      cbn [net_aliases log_warning]; by rewrite ?assign_region_aliases.
Qed.

Lemma run_op_aliases op ctx ctx' :
  run_op op ctx = Some ctx' → net_aliases ctx ⊆ net_aliases ctx'.
Proof.
  destruct op; cbn [run_op].
  - unfold addClock, getNetByAlias. destruct (net_aliases ctx !! net) as [c|].
    + destruct (nets ctx !! c); [|done]. by intros [= <-].
    + by intros [= <-].
  - by intros [= <-].
  - unfold addBelToRegion, addBelToRegion_outcome, region_index_get.
    destruct (region ctx !! name) as [[r|]|] eqn:E; [|done..]. rewrite E.
    by intros [= <-].
  - intros H. by rewrite (constrainCellToRegion_aliases _ _ _ _ _ H).
  - by intros [= <-].
  - intros H. apply attributesToArchInfo_frame in H as (_ & -> & _). done.
  - unfold createNet. destruct (decide (is_Some (nets ctx !! name))); [done|].
    destruct (decide (is_Some (net_aliases ctx !! name))) as [|Hn]; [done|].
    intros [= <-]. cbn [net_aliases set_nets set_net_aliases].
    apply insert_subseteq. destruct (net_aliases ctx !! name) eqn:E; [|done].
    exfalso. apply Hn. by eexists.
  - unfold connectPort, getNetByAlias, connect_port.
    destruct (net_aliases ctx !! net) as [c|]; [|done].
    destruct (nets ctx !! c) eqn:En; cbn [mbind option_bind]; [|done].
    destruct (cells ctx !! cell) as [ci|]; cbn [mbind option_bind]; [|done].
    rewrite En. cbn [mbind option_bind].
    destruct (c_ports ci !! port); cbn [mbind option_bind]; [|done]. by intros [= <-].
  - unfold disconnectPort, disconnect_port.
    destruct (cells ctx !! cell) as [ci|]; cbn [mbind option_bind]; [|done].
    destruct (c_ports ci !! port); by intros [= <-].
  - unfold ripupNet. destruct (getNetByAlias name ctx) as [[c ni]|]; [|done].
    cbn [mbind option_bind]. intros [= <-]. by rewrite unbindWire_all.
  - unfold lockNetRouting. destruct (getNetByAlias name ctx) as [[c ni]|]; [|done].
    by intros [= <-].
  - unfold createCell. destruct (decide (is_Some (cells ctx !! name))); [done|].
    by intros [= <-].
  - unfold copyBelPorts. destruct (cells ctx !! cell); [|done]. by intros [= <-].
Qed.

Lemma createNet_canonical name ctx ctx' h :
  alias_canonical ctx → createNet name ctx = Some (ctx', h) → alias_canonical ctx'.
Proof.
  intros Hinv. unfold createNet.
  destruct (decide (is_Some (nets ctx !! name))); [done|].
  destruct (decide (is_Some (net_aliases ctx !! name))); [done|].
  intros [= <- <-] k ni. cbn [nets net_aliases set_nets set_net_aliases].
  destruct (decide (name = k)) as [->|Hne].
  - by rewrite !lookup_insert_eq.
  - rewrite !lookup_insert_ne by done. apply Hinv.
Qed.

(** C7. [createNet(name)] stops on its assertions when [name] is a net or
    an alias already; otherwise it adds an empty net under [name] and makes
    [name] its own alias.  Hence every net is its own canonical alias after
    any sequence of [createNet] calls that starts from a design where this
    holds (the empty design is one), and no operation of [BaseCtx] removes
    or changes an entry of the alias table. *)
Theorem createNet_alias_invariant :
  (∀ ctx name,
     is_Some (nets ctx !! name) ∨ is_Some (net_aliases ctx !! name) →
     createNet name ctx = None) ∧
  (∀ ctx name,
     nets ctx !! name = None → net_aliases ctx !! name = None →
     ∃ ctx',
       createNet name ctx = Some (ctx', name) ∧
       nets ctx' = <[name := NetInfo_new name]> (nets ctx) ∧
       net_aliases ctx' = <[name := name]> (net_aliases ctx) ∧
       cells ctx' = cells ctx ∧ region ctx' = region ctx ∧
       hierarchy ctx' = hierarchy ctx ∧ log ctx' = log ctx) ∧
  alias_canonical empty_ctx ∧
  (∀ names ctx ctx',
     alias_canonical ctx →
     run_ops (OpCreateNet <$> names) ctx = Some ctx' →
     alias_canonical ctx') ∧
  (∀ op ctx ctx', run_op op ctx = Some ctx' → net_aliases ctx ⊆ net_aliases ctx').
Proof.
  split; [|split; [|split; [|split]]].
  - intros ctx name [Hn|Ha]; unfold createNet.
    + by rewrite decide_True.
    + destruct (decide (is_Some (nets ctx !! name))); [done|]. by rewrite decide_True.
  - intros ctx name Hn Ha. unfold createNet.
    rewrite decide_False by (rewrite Hn; by intros [??]).
    rewrite decide_False by (rewrite Ha; by intros [??]).
    by eexists.
  - intros n ni. cbn [nets empty_ctx]. by rewrite lookup_empty.
  - intros names. induction names as [|name names IH]; intros ctx ctx' Hinv.
    + by intros [= <-].
    + unfold run_ops. cbn [fmap list_fmap foldlM run_op].
      destruct (createNet name ctx) as [[ctx1 h]|] eqn:E; [|done].
      cbn [fmap option_fmap option_map fst]. apply IH.
      by apply (createNet_canonical name ctx ctx1 h).
  - apply run_op_aliases.
Qed.

End NetClaims.

(** * Registries: [createCell] and [createNet] *)

Section Registries.
Context `{arch : Arch}.

(** X1.  [createCell(name, type)] stops on its assertion exactly when a cell of
    that name exists.  Otherwise the new cell is found under [name]: it has
    the given type, no site, no constraint, no region, no port and no
    attribute; the other cells, the nets and the alias table are as before,
    and creating the same name again stops. *)
Theorem createCell_fresh_or_fails (ctx : BaseCtx) (name type : IdString) :
  (createCell name type ctx = None ↔ is_Some (cells ctx !! name)) ∧
  (∀ ctx' h,
     createCell name type ctx = Some (ctx', h) →
     h = name ∧
     cells ctx' !! name = Some (CellInfo_new name type) ∧
     (∀ other, other ≠ name → cells ctx' !! other = cells ctx !! other) ∧
     nets ctx' = nets ctx ∧ net_aliases ctx' = net_aliases ctx ∧
     region ctx' = region ctx ∧ hierarchy ctx' = hierarchy ctx ∧ log ctx' = log ctx ∧
     ∀ type', createCell name type' ctx' = None).
Proof.
  unfold createCell. split.
  - destruct (decide (is_Some (cells ctx !! name))); split; try done.
  - destruct (decide (is_Some (cells ctx !! name))); [done|].
    intros ctx' h [= <- <-]. cbn [cells nets net_aliases region hierarchy log set_cells].
    split; [done|]. split; [apply lookup_insert_eq|].
    split; [by intros other ?; rewrite lookup_insert_ne|].
    repeat split. intros type'. rewrite decide_True; [done|].
    rewrite lookup_insert_eq. by eexists.
Qed.

Lemma createNet_lookups name ctx ctx' h :
  createNet name ctx = Some (ctx', h) →
  nets ctx !! name = None ∧ net_aliases ctx !! name = None ∧
  nets ctx' = <[name := NetInfo_new name]> (nets ctx) ∧
  net_aliases ctx' = <[name := name]> (net_aliases ctx).
Proof.
  unfold createNet.
  destruct (decide (is_Some (nets ctx !! name))) as [|Hn]; [done|].
  destruct (decide (is_Some (net_aliases ctx !! name))) as [|Ha]; [done|].
  intros [= <- <-]. cbn [nets net_aliases set_nets set_net_aliases].
  split; [by destruct (nets ctx !! name); [destruct Hn; eexists|]|].
  split; [by destruct (net_aliases ctx !! name); [destruct Ha; eexists|]|]. done.
Qed.

(** X2.  A sequence of [createNet] calls completes exactly when its names are
    pairwise different and none of them is a net or an alias beforehand.
    Afterwards each of these names holds an empty net and is its own alias,
    and every other net and alias is as before. *)
Theorem createNet_sequence (names : list IdString) (ctx : BaseCtx) :
  (is_Some (run_ops (OpCreateNet <$> names) ctx) ↔
     NoDup names ∧
     Forall (λ n, nets ctx !! n = None ∧ net_aliases ctx !! n = None) names) ∧
  (∀ ctx', run_ops (OpCreateNet <$> names) ctx = Some ctx' →
     ∀ k, nets ctx' !! k
          = (if decide (k ∈ names) then Some (NetInfo_new k) else nets ctx !! k) ∧
          net_aliases ctx' !! k
          = (if decide (k ∈ names) then Some k else net_aliases ctx !! k)).
Proof.
  revert ctx. induction names as [|name names IH]; intros ctx.
  { split.
    - split; [intros _; split; constructor|intros _; by eexists].
    - intros ctx' [= <-] k. by rewrite decide_False by apply not_elem_of_nil. }
  unfold run_ops. cbn [fmap list_fmap foldlM run_op].
  destruct (createNet name ctx) as [[ctx1 h]|] eqn:E; cbn [fmap option_fmap option_map fst].
  - apply createNet_lookups in E as (Hn & Ha & En & Ea).
    destruct (IH ctx1) as [IH1 IH2]. fold (run_ops (OpCreateNet <$> names) ctx1). split.
    + rewrite IH1, NoDup_cons, Forall_cons, !Forall_forall. split.
      * intros [Hnd Hall]. split; [split; [|done]|split; [done|]].
        -- intros Hin. destruct (Hall name Hin) as [Hx _].
           rewrite En in Hx. by rewrite lookup_insert_eq in Hx.
        -- intros x Hx. destruct (Hall x Hx) as [H1 H2]. rewrite En in H1. rewrite Ea in H2.
           destruct (decide (name = x)) as [->|Hne]; [by rewrite lookup_insert_eq in H1|].
           rewrite lookup_insert_ne in H1 by done. by rewrite lookup_insert_ne in H2 by done.
      * intros [[Hnin Hnd] [_ Hall]]. split; [done|].
        intros x Hx. destruct (Hall x Hx) as [H1 H2]. rewrite En, Ea.
        assert (name ≠ x) by (by intros ->). by rewrite !lookup_insert_ne.
    + intros ctx' Hrun k. destruct (IH2 ctx' Hrun k) as [-> ->]. rewrite En, Ea.
      destruct (decide (k = name)) as [->|Hne].
      * rewrite !(decide_True (P := name ∈ name :: names)) by by left.
        destruct (decide (name ∈ names)); by rewrite ?lookup_insert_eq.
      * rewrite !lookup_insert_ne by done.
        destruct (decide (k ∈ names)) as [Hin|Hnin].
        -- by rewrite !(decide_True (P := k ∈ name :: names)) by by right.
        -- by rewrite !(decide_False (P := k ∈ name :: names))
             by by intros [?|?]%elem_of_cons.
  - split; [|done]. split; [by intros [??]|]. intros [_ Hall]. exfalso.
    apply Forall_cons in Hall as [[Hn Ha] _]. unfold createNet in E.
    rewrite decide_False in E by (rewrite Hn; by intros [??]).
    by rewrite decide_False in E by (rewrite Ha; by intros [??]).
Qed.

End Registries.

(** * Primitives on nets and ports *)

Section Primitives.
Context `{arch : Arch}.


(** X4.  The primitives stop abnormally on names they cannot resolve: a net name
    that is no alias stops [connectPort], [ripupNet] and [lockNetRouting];
    an alias whose target is no net of the registry stops these and also
    [addClock], which only looks at the alias table before it resolves; an
    unknown cell stops [connectPort], [disconnectPort] and [copyBelPorts].
    None of them logs a warning instead. *)
Theorem unknown_names_stop (ctx : BaseCtx) (net cell port : IdString) (b : BelId)
    (freq : float) :
  (getNetByAlias net ctx = None →
     connectPort net cell port ctx = None ∧ ripupNet net ctx = None ∧
     lockNetRouting net ctx = None) ∧
  (∀ target, net_aliases ctx !! net = Some target → nets ctx !! target = None →
     getNetByAlias net ctx = None ∧ addClock net freq ctx = None) ∧
  (cells ctx !! cell = None →
     connectPort net cell port ctx = None ∧ disconnectPort cell port ctx = None ∧
     copyBelPorts cell b ctx = None).
Proof.
  split; [|split].
  - intros Hn. unfold connectPort, ripupNet, lockNetRouting. by rewrite Hn.
  - intros target Ha Ht. unfold addClock, getNetByAlias. by rewrite Ha, Ht.
  - intros Hc. unfold connectPort, disconnectPort, copyBelPorts. rewrite Hc.
    split; [|done]. by destruct (getNetByAlias net ctx) as [[??]|].
Qed.

Lemma copy_pins_lookup b pins ps pin :
  foldl (copy_pin b) ps pins !! pin
  = if decide (pin ∈ pins)
    then Some {| p_name := pin; p_net := ps !! pin ≫= p_net; p_type := getBelPinType b pin |}
    else ps !! pin.
Proof.
  revert ps. induction pins as [|p pins IH]; intros ps.
  - by rewrite decide_False by apply not_elem_of_nil.
  - cbn [foldl]. rewrite IH. unfold copy_pin.
    destruct (decide (pin = p)) as [->|Hne].
    + rewrite (decide_True (P := p ∈ p :: pins)) by by left.
      rewrite lookup_insert_eq. cbn [mbind option_bind p_net].
      destruct (decide (p ∈ pins)); [|destruct (ps !! p); done].
      by destruct (ps !! p).
    + rewrite lookup_insert_ne by done.
      destruct (decide (pin ∈ pins)) as [Hin|Hnin].
      * by rewrite (decide_True (P := pin ∈ p :: pins)) by by right.
      * by rewrite (decide_False (P := pin ∈ p :: pins)) by by intros [?|?]%elem_of_cons.
Qed.

(** X5.  [copyBelPorts(cell, site)] on a cell of the registry: every pin of the
    site becomes a port of the cell, named after the pin and typed by the
    architecture, still connected to the net a port of that name was
    connected to; the other ports, the other fields of the cell and the
    other cells are left as they are. *)
Theorem copyBelPorts_ports (ctx : BaseCtx) (cell : IdString) (b : BelId) (ci : CellInfo) :
  cells ctx !! cell = Some ci →
  ∃ ctx' ci',
    copyBelPorts cell b ctx = Some ctx' ∧
    cells ctx' !! cell = Some ci' ∧
    (∀ pin, pin ∈ getBelPins b →
       c_ports ci' !! pin
       = Some {| p_name := pin; p_net := c_ports ci !! pin ≫= p_net;
                 p_type := getBelPinType b pin |}) ∧
    (∀ pin, pin ∉ getBelPins b → c_ports ci' !! pin = c_ports ci !! pin) ∧
    ci' = set_c_ports (c_ports ci') ci ∧
    (∀ other, other ≠ cell → cells ctx' !! other = cells ctx !! other) ∧
    nets ctx' = nets ctx ∧ log ctx' = log ctx.
Proof.
  intros Hc. unfold copyBelPorts. rewrite Hc. cbn [mbind option_bind].
  eexists _, _. split; [reflexivity|]. cbn [cells nets log set_cells].
  split; [apply lookup_insert_eq|]. cbn [c_ports set_c_ports].
  change (foldl _ (c_ports ci) (getBelPins b))
    with (foldl (copy_pin b) (c_ports ci) (getBelPins b)).
  repeat split.
  - intros pin Hin. by rewrite copy_pins_lookup, decide_True.
  - intros pin Hnin. by rewrite copy_pins_lookup, decide_False.
  - intros other Hne. by rewrite lookup_insert_ne.
Qed.

End Primitives.

(** * Rectangular regions *)

Section Regions.
Context `{arch : Arch}.






(** X8.  Constraining a leaf cell to a name under which no region is registered
    completes without a warning: the cell is left without a region, and the
    name enters the region table with a null pointer, so that a later
    [addBelToRegion] on it stops abnormally. *)
Theorem constrain_to_unknown_region (ctx : BaseCtx) (cell R : IdString) (ci : CellInfo)
    (fuel : nat) (b : BelId) :
  hierarchy ctx !! cell = None →
  cells ctx !! cell = Some ci →
  region ctx !! R = None →
  ∃ ctx',
    constrainCellToRegion (S fuel) cell R ctx = Some ctx' ∧
    cells ctx' !! cell = Some (set_c_region None ci) ∧
    region ctx' = <[R := None]> (region ctx) ∧
    log ctx' = log ctx ∧
    addBelToRegion R b ctx' = None.
Proof.
  intros Hh Hc HR. rewrite constrain_unfold, Hh.
  rewrite decide_True by (rewrite Hc; by eexists).
  unfold assign_region, region_index_get. rewrite Hc, HR.
  eexists. split; [reflexivity|]. cbn [cells region log set_cells set_region].
  split; [apply lookup_insert_eq|]. split; [done|]. split; [done|].
  unfold addBelToRegion, addBelToRegion_outcome, region_index_get. cbn [cells region log set_cells set_region].
  by rewrite lookup_insert_eq.
Qed.

End Regions.

(** * The recursion of [constrainCellToRegion] *)

Section Constrain.
Context `{arch : Arch}.

Lemma region_only_refl ctx : region_only ctx ctx.
Proof.
  repeat split; try done. intros k. by destruct (cells ctx !! k) as [[]|].
Qed.

Lemma region_only_trans ctx1 ctx2 ctx3 :
  region_only ctx1 ctx2 → region_only ctx2 ctx3 → region_only ctx1 ctx3.
Proof.
  intros (Hn1 & Ha1 & Hh1 & Hc1 & Hr1 & Hl1) (Hn2 & Ha2 & Hh2 & Hc2 & Hr2 & Hl2).
  repeat split; try congruence.
  - intros k. specialize (Hc1 k). specialize (Hc2 k).
    destruct (cells ctx1 !! k) as [c1|]; rewrite Hc1 in Hc2; cbn in *; [|done].
    destruct (cells ctx3 !! k) as [c3|]; [|done]. cbn in *.
    by injection Hc2 as ->.
  - by etrans.
  - by etrans.
Qed.

Lemma assign_region_only cell R ctx : region_only ctx (assign_region cell R ctx).
Proof.
  unfold assign_region, region_index_get.
  destruct (cells ctx !! cell) as [ci|] eqn:Ec; [|apply region_only_refl].
  assert (∀ r rg, rg = region ctx ∨ (region ctx !! R = None ∧ rg = <[R := None]> (region ctx)) →
            region_only ctx (set_cells (<[cell := set_c_region r ci]> (cells (set_region rg ctx)))
                               (set_region rg ctx))) as Hgen.
  { intros r rg Hrg. repeat split; try done.
    - intros k. cbn [cells set_cells set_region].
      destruct (decide (cell = k)) as [<-|Hne].
      + by rewrite lookup_insert_eq, Ec.
      + rewrite lookup_insert_ne by done. by destruct (cells ctx !! k) as [[]|].
    - cbn [region set_cells set_region]. destruct Hrg as [->|[HR ->]]; [done|].
      by apply insert_subseteq. }
  destruct (region ctx !! R) as [[rg|]|] eqn:ER.
  - replace ctx with (set_region (region ctx) ctx) at 2 3 by by destruct ctx.
    apply Hgen. by left.
  - replace ctx with (set_region (region ctx) ctx) at 2 3 by by destruct ctx.
    apply Hgen. by left.
  - apply Hgen. by right.
Qed.

Lemma log_warning_region_only fmt args ctx : region_only ctx (log_warning fmt args ctx).
Proof.
  repeat split; try done.
  - intros k. cbn [cells log_warning]. by destruct (cells ctx !! k) as [[]|].
  - cbn [log log_warning]. by apply prefix_app_r.
Qed.

Lemma foldlM_region_only {A : Type} (f : BaseCtx → A → option BaseCtx) l :
  (∀ s x s', f s x = Some s' → region_only s s') →
  ∀ s s', foldlM f s l = Some s' → region_only s s'.
Proof.
  intros Hf. induction l as [|x l IH]; intros s s'; cbn [foldlM].
  - intros [= ->]. apply region_only_refl.
  - destruct (f s x) as [s1|] eqn:E; [|done]. intros H.
    eapply region_only_trans; [by eapply Hf|by apply IH].
Qed.

Lemma constrainCellToRegion_region_only fuel cell R ctx ctx' :
  constrainCellToRegion fuel cell R ctx = Some ctx' → region_only ctx ctx'.
Proof.
  revert cell ctx ctx'. induction fuel as [|fuel IH]; intros cell ctx ctx'; [done|].
  rewrite constrain_unfold.
  assert (∀ l c c', foldlM (λ c (lc : IdString * IdString),
                      constrainCellToRegion fuel lc.2 R c) c l = Some c' →
                    region_only c c') as Hfold.
  { intros l. apply foldlM_region_only. intros s x s'. apply IH. }
  destruct (hierarchy ctx !! cell) as [hc|].
  - destruct (foldlM _ ctx (leaf_cells hc)) as [ctx1|] eqn:E1; [|done].
    destruct (foldlM _ ctx1 (hier_cells hc)) as [ctx2|] eqn:E2; [|done].
    apply Hfold in E1, E2.
    destruct (decide (is_Some (cells ctx2 !! cell))); intros [= <-].
    + eapply region_only_trans; [done|]. eapply region_only_trans; [done|].
      apply assign_region_only.
    + by eapply region_only_trans.
  - destruct (decide (is_Some (cells ctx !! cell))); intros [= <-].
    + apply assign_region_only.
    + apply log_warning_region_only.
Qed.

(** X9.  Whatever [constrainCellToRegion] is called on, when it completes it has
    touched nothing but regions: every cell is still there with all its
    fields but [region] as before, no cell was added, the nets, the alias
    table and the hierarchy are the same, every region of the table is
    still registered, and the log has only grown. *)
Theorem constrainCellToRegion_touches_regions_only (fuel : nat) (cell R : IdString)
    (ctx ctx' : BaseCtx) :
  constrainCellToRegion fuel cell R ctx = Some ctx' →
  nets ctx' = nets ctx ∧ net_aliases ctx' = net_aliases ctx ∧
  hierarchy ctx' = hierarchy ctx ∧
  (∀ k, cells ctx !! k = None → cells ctx' !! k = None) ∧
  (∀ k ci, cells ctx !! k = Some ci →
     ∃ r, cells ctx' !! k = Some (set_c_region r ci)) ∧
  (∀ k rg, region ctx !! k = Some rg → region ctx' !! k = Some rg) ∧
  log ctx `prefix_of` log ctx'.
Proof.
  intros H. apply constrainCellToRegion_region_only in H
    as (Hn & Ha & Hh & Hc & Hr & Hl).
  repeat split; try done.
  - intros k Hk. by rewrite Hc, Hk.
  - intros k ci Hk. rewrite Hc, Hk. by eexists.
  - intros k rg Hk. by eapply lookup_weaken.
Qed.

Lemma foldlM_stuck {A : Type} (f : BaseCtx → A → option BaseCtx)
    (P : BaseCtx → Prop) (l : list A) (x : A) :
  x ∈ l →
  (∀ s y s', P s → f s y = Some s' → P s') →
  (∀ s, P s → f s x = None) →
  ∀ s, P s → foldlM f s l = None.
Proof.
  intros Hx Hstep Hstuck. induction l as [|y l IH]; intros s Hs.
  - by apply elem_of_nil in Hx.
  - cbn [foldlM]. destruct (f s y) as [s1|] eqn:E; [|done].
    apply elem_of_cons in Hx as [->|Hx].
    + by rewrite Hstuck in E.
    + apply IH; [done|]. by eapply Hstep.
Qed.

(** X10.  A hierarchy entry that lists itself among its leaf or nested children
    sends [constrainCellToRegion] into a recursion without end: no bound on
    the depth lets the call complete. *)
Theorem constrain_self_nested_never_returns (ctx : BaseCtx) (H R l : IdString)
    (hc : HierarchicalCell) :
  hierarchy ctx !! H = Some hc →
  (l, H) ∈ leaf_cells hc ++ hier_cells hc →
  ∀ fuel, constrainCellToRegion fuel H R ctx = None.
Proof.
  intros HH Hin fuel. revert ctx HH.
  induction fuel as [|fuel IH]; intros ctx HH; [done|].
  rewrite constrain_unfold, HH.
  set (f := λ c (lc : IdString * IdString), constrainCellToRegion fuel lc.2 R c).
  set (P := λ c : BaseCtx, hierarchy c !! H = Some hc).
  assert (∀ s y s', P s → f s y = Some s' → P s') as Hstep.
  { intros s y s' Hs Hf. unfold P, f in *.
    apply constrainCellToRegion_region_only in Hf as (_ & _ & Hh & _). by rewrite Hh. }
  assert (∀ s, P s → f s (l, H) = None) as Hstuck.
  { intros s Hs. unfold f. cbn [snd]. by apply IH. }
  apply elem_of_app in Hin as [Hin|Hin].
  - by rewrite (foldlM_stuck f P _ _ Hin Hstep Hstuck ctx HH).
  - destruct (foldlM f ctx (leaf_cells hc)) as [ctx1|] eqn:E1; [|done].
    assert (P ctx1) as H1.
    { unfold P. apply (foldlM_region_only f) in E1 as (_ & _ & Hh & _); [by rewrite Hh|].
      intros s x s'. apply constrainCellToRegion_region_only. }
    by rewrite (foldlM_stuck f P _ _ Hin Hstep Hstuck ctx1 H1).
Qed.

Lemma foldlM_completes {A : Type} (f : BaseCtx → A → option BaseCtx)
    (P : BaseCtx → Prop) (l : list A) :
  (∀ s y, y ∈ l → P s → ∃ s', f s y = Some s' ∧ P s') →
  ∀ s, P s → ∃ s', foldlM f s l = Some s' ∧ P s'.
Proof.
  induction l as [|x l IH]; intros Hf s Hs; cbn [foldlM]; [by eauto|].
  destruct (Hf s x) as (s1 & -> & H1); [by left|done|].
  apply IH; [|done]. intros s2 y Hy. apply Hf. by right.
Qed.

Lemma foldlM_mono {A : Type} (f g : BaseCtx → A → option BaseCtx) (l : list A) :
  (∀ s y s', f s y = Some s' → g s y = Some s') →
  ∀ s s', foldlM f s l = Some s' → foldlM g s l = Some s'.
Proof.
  intros Hfg. induction l as [|x l IH]; intros s s'; cbn [foldlM]; [done|].
  destruct (f s x) as [s1|] eqn:E; [|done]. rewrite (Hfg _ _ _ E). apply IH.
Qed.

(** A call that completes within some depth gives the same result within
    any larger one. *)
Lemma constrain_fuel_mono fuel fuel' cell R ctx ctx' :
  (fuel ≤ fuel')%nat →
  constrainCellToRegion fuel cell R ctx = Some ctx' →
  constrainCellToRegion fuel' cell R ctx = Some ctx'.
Proof.
  revert fuel' cell ctx ctx'.
  induction fuel as [|fuel IH]; intros fuel' cell ctx ctx' Hle; [done|].
  destruct fuel' as [|fuel']; [lia|].
  rewrite !constrain_unfold.
  destruct (hierarchy ctx !! cell) as [hc|]; [|done].
  destruct (foldlM _ ctx (leaf_cells hc)) as [ctx1|] eqn:E1; [|done].
  destruct (foldlM _ ctx1 (hier_cells hc)) as [ctx2|] eqn:E2; [|done].
  rewrite (foldlM_mono _ (λ c (lc : IdString * IdString),
             constrainCellToRegion fuel' lc.2 R c) _ ltac:(intros s y s'; apply IH; lia) _ _ E1).
  by rewrite (foldlM_mono _ (λ c (lc : IdString * IdString),
             constrainCellToRegion fuel' lc.2 R c) _ ltac:(intros s y s'; apply IH; lia) _ _ E2).
Qed.

Lemma constrain_completes_below (rank : IdString → nat) (h : gmap IdString HierarchicalCell)
    (R : IdString) :
  (∀ parent hc l child, h !! parent = Some hc →
     (l, child) ∈ leaf_cells hc ++ hier_cells hc → (rank child < rank parent)%nat) →
  ∀ fuel cell ctx, hierarchy ctx = h → (rank cell < fuel)%nat →
    ∃ ctx', constrainCellToRegion fuel cell R ctx = Some ctx' ∧ hierarchy ctx' = h.
Proof.
  intros Hrank. induction fuel as [|fuel IH]; intros cell ctx Hh Hlt; [lia|].
  rewrite constrain_unfold.
  assert (∀ ctx2 matched, hierarchy ctx2 = h →
            ∃ ctx',
              (let '(ctx3, matched) :=
                 if decide (is_Some (cells ctx2 !! cell))
                 then (assign_region cell R ctx2, true)
                 else (ctx2, matched) in
               if matched : bool then Some ctx3
               else Some (log_warning "No cell matched '%s' when constraining to region '%s'\n"
                            [ArgStr cell; ArgStr R] ctx3)) = Some ctx' ∧
              hierarchy ctx' = h) as Hend.
  { intros ctx2 matched H2.
    destruct (decide (is_Some (cells ctx2 !! cell))).
    - eexists. split; [done|].
      destruct (assign_region_only cell R ctx2) as (_ & _ & -> & _). done.
    - destruct matched; eexists; (split; [done|]); done. }
  destruct (hierarchy ctx !! cell) as [hc|] eqn:Ec; [|by apply Hend].
  rewrite Hh in Ec.
  destruct (foldlM_completes
              (λ c (lc : IdString * IdString), constrainCellToRegion fuel lc.2 R c)
              (λ c, hierarchy c = h) (leaf_cells hc)) with (s := ctx)
    as (ctx1 & -> & H1); [|done|].
  { intros s [l child] Hin Hs. apply IH; [done|]. cbn [snd].
    pose proof (Hrank cell hc l child Ec) as Hr.
    rewrite elem_of_app in Hr. specialize (Hr (or_introl Hin)). lia. }
  destruct (foldlM_completes
              (λ c (lc : IdString * IdString), constrainCellToRegion fuel lc.2 R c)
              (λ c, hierarchy c = h) (hier_cells hc)) with (s := ctx1)
    as (ctx2 & -> & H2); [|done|].
  { intros s [l child] Hin Hs. apply IH; [done|]. cbn [snd].
    pose proof (Hrank cell hc l child Ec) as Hr.
    rewrite elem_of_app in Hr. specialize (Hr (or_intror Hin)). lia. }
  by apply Hend.
Qed.

(** X11.  On a hierarchy without cycles, given by a rank that decreases from every
    entry to each of its leaf and nested children, [constrainCellToRegion]
    completes: a depth above the rank of the cell suffices, and every such
    depth gives the same design. *)
Theorem constrain_acyclic_completes (ctx : BaseCtx) (rank : IdString → nat)
    (cell R : IdString) :
  (∀ parent hc l child, hierarchy ctx !! parent = Some hc →
     (l, child) ∈ leaf_cells hc ++ hier_cells hc → (rank child < rank parent)%nat) →
  ∃ ctx', ∀ fuel, (rank cell < fuel)%nat →
    constrainCellToRegion fuel cell R ctx = Some ctx'.
Proof.
  intros Hrank.
  destruct (constrain_completes_below rank (hierarchy ctx) R Hrank
              (S (rank cell)) cell ctx eq_refl) as (ctx' & H & _); [lia|].
  exists ctx'. intros fuel Hlt.
  apply (constrain_fuel_mono (S (rank cell))); [lia|done].
Qed.

End Constrain.

(** * Encoding *)

Section Encoding.
Context `{arch : Arch}.

Lemma encode_cell_eq ci : encode_cell ci = set_c_attrs (encode_attrs ci) ci.
Proof. rewrite <- encode_cell_attrs. reflexivity. Qed.

Lemma attr_if_id c k v (a : gmap IdString Property) :
  (c = true → a !! k = Some v) → attr_if c k v a = a.
Proof. destruct c; [|done]. intros H. by apply insert_id, H. Qed.

Ltac peel := repeat (rewrite attr_if_ne by done).

Lemma encode_attrs_other ci key :
  key ∉ encode_keys → encode_attrs ci !! key = c_attrs ci !! key.
Proof.
  intros Hk. unfold encode_attrs.
  assert (∀ k, k ∈ encode_keys → k ≠ key) as Hne by (intros k ? ->; done).
  rewrite !attr_if_ne by (apply Hne; unfold encode_keys; set_solver).
  destruct (bool_decide _); [|done].
  apply lookup_delete_ne, Hne. unfold encode_keys. set_solver.
Qed.

Lemma encode_attrs_BEL ci :
  encode_attrs ci !! "BEL"
  = if bool_decide (bel ci ≠ BelId_null) then None else c_attrs ci !! "BEL".
Proof.
  unfold encode_attrs. peel. destruct (bool_decide _); [|done].
  apply lookup_delete_eq.
Qed.

Lemma encode_attrs_unbound ci key :
  bel ci = BelId_null → key ∈ ["BEL"; "NEXTPNR_BEL"; "BEL_STRENGTH"] →
  encode_attrs ci !! key = c_attrs ci !! key.
Proof.
  intros Hb Hk. unfold encode_attrs.
  rewrite (bool_decide_eq_false_2 (bel ci ≠ BelId_null)) by (by intros ?).
  cbn [attr_if].
  repeat (apply elem_of_cons in Hk as [->|Hk]); [by peel..|by apply elem_of_nil in Hk].
Qed.

(** X12.  [archInfoToAttributes] writes attributes and nothing else: every cell
    and net keeps all its other fields, no entity is added or removed, and
    the tables and the log are the same.  On a cell, the attributes under
    keys other than [BEL] and the eight codec keys are kept; on a net, those
    under keys other than [ROUTING]. *)
Theorem archInfoToAttributes_writes_attributes_only (ctx : BaseCtx) :
  let ctx' := archInfoToAttributes ctx in
  net_aliases ctx' = net_aliases ctx ∧ region ctx' = region ctx ∧
  hierarchy ctx' = hierarchy ctx ∧ log ctx' = log ctx ∧
  (∀ k, cells ctx !! k = None → cells ctx' !! k = None) ∧
  (∀ k, nets ctx !! k = None → nets ctx' !! k = None) ∧
  (∀ k ci, cells ctx !! k = Some ci →
     ∃ a, cells ctx' !! k = Some (set_c_attrs a ci) ∧
          ∀ key, key ∉ encode_keys → a !! key = c_attrs ci !! key) ∧
  (∀ k ni, nets ctx !! k = Some ni →
     ∃ a, nets ctx' !! k = Some (set_n_attrs a ni) ∧
          ∀ key, key ≠ "ROUTING" → a !! key = n_attrs ni !! key).
Proof.
  cbn zeta. unfold archInfoToAttributes.
  cbn [cells nets net_aliases region hierarchy log set_nets set_cells].
  repeat split.
  - intros k Hk. by rewrite lookup_fmap, Hk.
  - intros k Hk. by rewrite lookup_fmap, Hk.
  - intros k ci Hk. rewrite lookup_fmap, Hk. cbn. rewrite encode_cell_eq.
    eexists. split; [done|]. apply encode_attrs_other.
  - intros k ni Hk. rewrite lookup_fmap, Hk. cbn. unfold encode_net.
    eexists. split; [done|]. intros key Hne. by rewrite lookup_insert_ne.
Qed.

(** X13.  Encoding a placed cell erases its [BEL] attribute; on a cell without a
    site the attributes [BEL], [NEXTPNR_BEL] and [BEL_STRENGTH] are left as
    they were, so that a placement attribute that is out of date stays on
    the cell. *)
Theorem archInfoToAttributes_placement_keys (ctx : BaseCtx) (k : IdString) (ci : CellInfo) :
  cells ctx !! k = Some ci →
  ∃ ci',
    cells (archInfoToAttributes ctx) !! k = Some ci' ∧
    (bel ci ≠ BelId_null →
       c_attrs ci' !! "BEL" = None ∧
       c_attrs ci' !! "NEXTPNR_BEL" = Some (Property_string (getBelName (bel ci))) ∧
       c_attrs ci' !! "BEL_STRENGTH" = Some (Property_int (belStrength ci))) ∧
    (bel ci = BelId_null →
       ∀ key, key ∈ ["BEL"; "NEXTPNR_BEL"; "BEL_STRENGTH"] →
              c_attrs ci' !! key = c_attrs ci !! key).
Proof.
  intros Hk. exists (encode_cell ci). split.
  { cbn [cells archInfoToAttributes set_nets set_cells]. by rewrite lookup_fmap, Hk. }
  split.
  - intros Hb. destruct (encode_cell_bel ci Hb) as [-> ->].
    rewrite encode_cell_attrs, encode_attrs_BEL. by rewrite bool_decide_eq_true_2.
  - intros Hb key Hkey. rewrite encode_cell_attrs. by apply encode_attrs_unbound.
Qed.

Lemma encode_attrs_fixed ci : encode_attrs (set_c_attrs (encode_attrs ci) ci) = encode_attrs ci.
Proof.
  unfold encode_attrs at 1.
  cbn [bel belStrength constr_x constr_y constr_z constr_abs_z constr_parent
       constr_children c_attrs set_c_attrs].
  assert ((if bool_decide (bel ci ≠ BelId_null) then delete "BEL" (encode_attrs ci)
           else encode_attrs ci) = encode_attrs ci) as ->.
  { destruct (bool_decide (bel ci ≠ BelId_null)) eqn:E; [|done].
    apply delete_id. by rewrite encode_attrs_BEL, E. }
  rewrite (attr_if_id _ "NEXTPNR_BEL").
  2:{ intros Hc. unfold encode_attrs. peel. rewrite Hc. apply attr_if_true. }
  rewrite (attr_if_id _ "BEL_STRENGTH").
  2:{ intros Hc. unfold encode_attrs. peel. rewrite Hc. apply attr_if_true. }
  rewrite (attr_if_id _ "CONSTR_X").
  2:{ intros Hc. unfold encode_attrs. peel. rewrite Hc. apply attr_if_true. }
  rewrite (attr_if_id _ "CONSTR_Y").
  2:{ intros Hc. unfold encode_attrs. peel. rewrite Hc. apply attr_if_true. }
  rewrite (attr_if_id _ "CONSTR_Z").
  2:{ intros Hc. unfold encode_attrs. peel. rewrite Hc. apply attr_if_true. }
  rewrite (attr_if_id _ "CONSTR_ABS_Z").
  2:{ intros Hc. unfold encode_attrs. peel. rewrite Hc. apply attr_if_true. }
  rewrite (attr_if_id _ "CONSTR_PARENT").
  2:{ intros Hc. unfold encode_attrs. peel. rewrite Hc. apply attr_if_true. }
  rewrite (attr_if_id _ "CONSTR_CHILDREN").
  2:{ intros Hc. unfold encode_attrs. rewrite Hc. apply attr_if_true. }
  done.
Qed.

(** X14.  Encoding is idempotent: [archInfoToAttributes] run on its own result
    changes nothing. *)
Theorem archInfoToAttributes_idempotent (ctx : BaseCtx) :
  archInfoToAttributes (archInfoToAttributes ctx) = archInfoToAttributes ctx.
Proof.
  unfold archInfoToAttributes.
  cbn [cells nets net_aliases region hierarchy log set_nets set_cells].
  unfold set_nets, set_cells. cbn [cells nets net_aliases region hierarchy log].
  f_equal.
  - rewrite <- map_fmap_compose. apply map_fmap_ext. intros k ci _. cbn.
    rewrite !encode_cell_eq. rewrite encode_attrs_fixed.
    by destruct ci.
  - rewrite <- map_fmap_compose. apply map_fmap_ext. intros k ni _. cbn.
    unfold encode_net. cbn [wires n_attrs set_n_attrs]. rewrite insert_insert_eq.
    by destruct ni.
Qed.



Lemma encode_attrs_parent ci p :
  constr_parent ci = Some p →
  encode_attrs ci !! "CONSTR_PARENT" = Some (Property_string p).
Proof.
  intros E. unfold encode_attrs. peel. rewrite E.
  rewrite bool_decide_eq_true_2 by (by eexists). apply attr_if_true.
Qed.

Lemma encode_attrs_children ci :
  constr_children ci ≠ [] →
  encode_attrs ci !! "CONSTR_CHILDREN"
  = Some (Property_string (join_children "" (constr_children ci))).
Proof.
  intros E. unfold encode_attrs. rewrite bool_decide_eq_true_2 by done. apply attr_if_true.
Qed.

End Encoding.

(** * Decoding *)

Section Decoding.
Context `{arch : Arch}.

Lemma resolve_children_filter cs strs children :
  resolve_children cs strs children
  = children ++ filter (λ name, is_Some (cs !! name)) strs.
Proof.
  revert children. induction strs as [|val strs IH]; intros children.
  - by rewrite app_nil_r.
  - cbn [resolve_children]. destruct (decide (is_Some (cs !! val))) as [Hv|Hv].
    + rewrite IH, filter_cons_True by done. by rewrite <- app_assoc.
    + by rewrite IH, filter_cons_False.
Qed.

Ltac decode_simpl :=
  cbn [mbind option_bind c_attrs set_constr_x set_constr_y set_constr_z
       set_constr_abs_z set_constr_parent set_constr_children set_bel].

Ltac decode_key k :=
  let p := fresh "p" in
  destruct (_ !! k) as [p|] eqn:?;
  [ unfold as_int64, as_string; destruct (is_string p) eqn:?; decode_simpl; try done
  | decode_simpl ].

(** What [decode_constraints] gives when it completes. *)
Lemma decode_constraints_result cs ci ci' :
  decode_constraints cs ci = Some ci' →
  let a := c_attrs ci in
  cell_identity ci' = cell_identity ci ∧
  bel ci' = bel ci ∧ belStrength ci' = belStrength ci ∧
  constr_x ci' = coord_of a "CONSTR_X" (constr_x ci) ∧
  constr_y ci' = coord_of a "CONSTR_Y" (constr_y ci) ∧
  constr_z ci' = coord_of a "CONSTR_Z" (constr_z ci) ∧
  constr_abs_z ci' = flag_of a "CONSTR_ABS_Z" (constr_abs_z ci) ∧
  constr_parent ci' = parent_of cs a (constr_parent ci) ∧
  constr_children ci' = children_of cs a (constr_children ci).
Proof.
  cbn zeta. unfold decode_constraints, coord_of, flag_of, children_of, parent_of.
  decode_key "CONSTR_X"; decode_key "CONSTR_Y"; decode_key "CONSTR_Z";
    decode_key "CONSTR_ABS_Z"; decode_key "CONSTR_PARENT";
    try (destruct (cs !! _)); decode_simpl;
    decode_key "CONSTR_CHILDREN"; intros [= <-]; rewrite ?resolve_children_filter; done.
Qed.

(** The constraint attributes that were read had the kind they are read
    as. *)
Lemma decode_constraints_kinds cs ci ci' :
  decode_constraints cs ci = Some ci' →
  let a := c_attrs ci in
  kind_ok a "CONSTR_X" false ∧ kind_ok a "CONSTR_Y" false ∧
  kind_ok a "CONSTR_Z" false ∧ kind_ok a "CONSTR_ABS_Z" false ∧
  kind_ok a "CONSTR_PARENT" true ∧ kind_ok a "CONSTR_CHILDREN" true.
Proof.
  cbn zeta. unfold decode_constraints, kind_ok.
  decode_key "CONSTR_X"; decode_key "CONSTR_Y"; decode_key "CONSTR_Z";
    decode_key "CONSTR_ABS_Z"; decode_key "CONSTR_PARENT";
    try (destruct (cs !! _)); decode_simpl;
    decode_key "CONSTR_CHILDREN"; done.
Qed.

(** What the loop body of [attributesToArchInfo] gives for one cell when it
    completes. *)
Lemma decode_cell_result cs ci ci' :
  decode_cell cs ci = Some ci' →
  let a := c_attrs ci in
  cell_identity ci' = cell_identity ci ∧
  (bel ci', belStrength ci') = binding_of a (bel ci, belStrength ci) ∧
  (dangling_parent cs a →
     constr_x ci' = constr_x ci ∧ constr_y ci' = constr_y ci ∧
     constr_z ci' = constr_z ci ∧ constr_abs_z ci' = constr_abs_z ci ∧
     constr_parent ci' = constr_parent ci ∧ constr_children ci' = constr_children ci) ∧
  (¬ dangling_parent cs a →
     constr_x ci' = coord_of a "CONSTR_X" (constr_x ci) ∧
     constr_y ci' = coord_of a "CONSTR_Y" (constr_y ci) ∧
     constr_z ci' = coord_of a "CONSTR_Z" (constr_z ci) ∧
     constr_abs_z ci' = flag_of a "CONSTR_ABS_Z" (constr_abs_z ci) ∧
     constr_parent ci' = parent_of cs a (constr_parent ci) ∧
     constr_children ci' = children_of cs a (constr_children ci)).
Proof.
  cbn zeta. unfold decode_cell, binding_of, strength_of.
  assert (∀ bound : CellInfo,
            cell_identity bound = cell_identity ci →
            constr_x bound = constr_x ci → constr_y bound = constr_y ci →
            constr_z bound = constr_z ci → constr_abs_z bound = constr_abs_z ci →
            constr_parent bound = constr_parent ci →
            constr_children bound = constr_children ci →
            match c_attrs bound !! "CONSTR_PARENT" with
            | Some val =>
                match cs !! str val with
                | Some _ => decode_constraints cs (set_constr_parent (Some (str val)) bound)
                | None => Some bound
                end
            | None => decode_constraints cs bound
            end = Some ci' →
            cell_identity ci' = cell_identity ci ∧
            (bel ci', belStrength ci') = (bel bound, belStrength bound) ∧
            (dangling_parent cs (c_attrs ci) →
               constr_x ci' = constr_x ci ∧ constr_y ci' = constr_y ci ∧
               constr_z ci' = constr_z ci ∧ constr_abs_z ci' = constr_abs_z ci ∧
               constr_parent ci' = constr_parent ci ∧
               constr_children ci' = constr_children ci) ∧
            (¬ dangling_parent cs (c_attrs ci) →
               constr_x ci' = coord_of (c_attrs ci) "CONSTR_X" (constr_x ci) ∧
               constr_y ci' = coord_of (c_attrs ci) "CONSTR_Y" (constr_y ci) ∧
               constr_z ci' = coord_of (c_attrs ci) "CONSTR_Z" (constr_z ci) ∧
               constr_abs_z ci' = flag_of (c_attrs ci) "CONSTR_ABS_Z" (constr_abs_z ci) ∧
               constr_parent ci' = parent_of cs (c_attrs ci) (constr_parent ci) ∧
               constr_children ci' = children_of cs (c_attrs ci) (constr_children ci)))
    as Hrest.
  { intros bound Hid Hx Hy Hz Habs Hp Hch.
    assert (c_attrs bound = c_attrs ci) as Ha by (by injection Hid).
    rewrite Ha. unfold dangling_parent.
    destruct (c_attrs ci !! "CONSTR_PARENT") as [val|] eqn:Ep.
    - destruct (cs !! str val) as [parent|] eqn:Ec.
      + intros Hd. apply decode_constraints_result in Hd. cbn zeta in Hd.
        cbn [c_attrs bel belStrength constr_x constr_y constr_z constr_abs_z
             constr_parent constr_children set_constr_parent] in Hd.
        rewrite Ha in Hd. unfold parent_of in *. rewrite Ep, Ec in *.
        destruct Hd as (Hi & Hb & Hs & Hd). rewrite Hb, Hs.
        split; [by rewrite Hi, <- Hid; destruct bound|]. split; [done|]. split.
        * intros (v & [= <-] & Hv). congruence.
        * intros _. by rewrite <- Hx, <- Hy, <- Hz, <- Habs, <- Hch.
      + intros [= <-]. split; [done|]. split; [done|]. split; [done|].
        intros Hd. destruct Hd. by exists val.
    - intros Hd. apply decode_constraints_result in Hd. cbn zeta in Hd.
      rewrite Ha in Hd. unfold parent_of in *. rewrite Ep in *.
      destruct Hd as (Hi & Hb & Hs & Hd). rewrite Hb, Hs.
      split; [congruence|]. split; [done|]. split.
      + by intros (v & [=] & _).
      + intros _. by rewrite <- Hx, <- Hy, <- Hz, <- Habs, <- Hp, <- Hch. }
  destruct (c_attrs ci !! "NEXTPNR_BEL") as [val|] eqn:Eb.
  - unfold as_string. destruct (is_string val).
    2:{ by destruct (c_attrs ci !! "BEL_STRENGTH") as [sv|]; [destruct (as_int64 sv)|]. }
    destruct (c_attrs ci !! "BEL_STRENGTH") as [sv|] eqn:Es.
    + unfold as_int64. destruct (is_string sv); [done|].
      cbn [mbind option_bind]. unfold bindBel. intros H. by apply Hrest in H.
    + cbn [mbind option_bind]. unfold bindBel. intros H. by apply Hrest in H.
  - cbn [mbind option_bind]. intros H. by apply Hrest in H.
Qed.

(** A pass that completes has decoded every cell and every net. *)
Lemma attributesToArchInfo_inv ctx ctx' :
  attributesToArchInfo ctx = Some ctx' →
  log ctx' = log ctx ∧ net_aliases ctx' = net_aliases ctx ∧
  region ctx' = region ctx ∧ hierarchy ctx' = hierarchy ctx ∧
  (∀ k, cells ctx !! k = None → cells ctx' !! k = None) ∧
  (∀ k ci, cells ctx !! k = Some ci →
     ∃ ci', cells ctx' !! k = Some ci' ∧ decode_cell (cells ctx) ci = Some ci') ∧
  (∀ k, nets ctx !! k = None → nets ctx' !! k = None) ∧
  (∀ k ni, nets ctx !! k = Some ni →
     ∃ ni', nets ctx' !! k = Some ni' ∧ decode_net ni = Some ni').
Proof.
  unfold attributesToArchInfo.
  pose proof (map_traverse_spec (decode_cell (cells ctx)) (cells ctx)) as Hc.
  destruct (map_traverse _ (cells ctx)) as [cs|]; [|done]. cbn [mbind option_bind].
  pose proof (map_traverse_spec decode_net (nets ctx)) as Hn.
  destruct (map_traverse decode_net (nets ctx)) as [ns|]; [|done].
  intros [= <-]. cbn [cells nets log net_aliases region hierarchy set_nets set_cells].
  repeat split; try done.
  - intros k Hk. destruct (Hc k) as [-> _]. by rewrite Hk.
  - intros k ci Hk. destruct (Hc k) as [-> [?|[ci' Hd]]]; [congruence|].
    rewrite Hk in *. cbn in *. by exists ci'.
  - intros k Hk. destruct (Hn k) as [-> _]. by rewrite Hk.
  - intros k ni Hk. destruct (Hn k) as [-> [?|[ni' Hd]]]; [congruence|].
    rewrite Hk in *. cbn in *. by exists ni'.
Qed.

Lemma routing_groups_identity strs n i ni ni' :
  routing_groups strs n i ni = Some ni' → net_identity ni' = net_identity ni.
Proof.
  revert i ni. induction n as [|n IH]; intros i ni; cbn [routing_groups].
  - by intros [= <-].
  - destruct (strs !! (i * 3)%nat) as [wire|]; [|done]. cbn [mbind option_bind].
    destruct (strs !! (i * 3 + 1)%nat) as [pip_name|]; [|done]. cbn [mbind option_bind].
    destruct (strs !! (i * 3 + 2)%nat) as [x|]; [|done]. cbn [mbind option_bind].
    destruct (stoi x) as [s|]; [|done]. cbn [mbind option_bind].
    intros H. apply IH in H. rewrite H.
    by destruct (decide (pip_name = EmptyString)).
Qed.

Lemma decode_net_identity ni ni' :
  decode_net ni = Some ni' → net_identity ni' = net_identity ni.
Proof.
  unfold decode_net. destruct (n_attrs ni !! "ROUTING") as [val|]; [|by intros [= <-]].
  unfold as_string. destruct (is_string val); [|done]. cbn [mbind option_bind].
  apply routing_groups_identity.
Qed.

(** X15.  Decoding never touches what it reads from: a pass that completes leaves
    the name, type, ports, attributes and region of every cell and the name,
    driver, users, attributes and clock constraint of every net as they
    were, adds and removes no cell or net, and keeps the alias table, the
    regions, the hierarchy and the log. *)
Theorem attributesToArchInfo_keeps_identity (ctx ctx' : BaseCtx) :
  attributesToArchInfo ctx = Some ctx' →
  log ctx' = log ctx ∧ net_aliases ctx' = net_aliases ctx ∧
  region ctx' = region ctx ∧ hierarchy ctx' = hierarchy ctx ∧
  (∀ k, cells ctx !! k = None → cells ctx' !! k = None) ∧
  (∀ k ci, cells ctx !! k = Some ci →
     ∃ ci', cells ctx' !! k = Some ci' ∧ cell_identity ci' = cell_identity ci) ∧
  (∀ k, nets ctx !! k = None → nets ctx' !! k = None) ∧
  (∀ k ni, nets ctx !! k = Some ni →
     ∃ ni', nets ctx' !! k = Some ni' ∧ net_identity ni' = net_identity ni).
Proof.
  intros H. apply attributesToArchInfo_inv in H
    as (Hl & Ha & Hr & Hh & Hc0 & Hc & Hn0 & Hn).
  repeat split; try done.
  - intros k ci Hk. destruct (Hc k ci Hk) as (ci' & Hk' & Hd).
    exists ci'. split; [done|]. by apply decode_cell_result in Hd as [? _].
  - intros k ni Hk. destruct (Hn k ni Hk) as (ni' & Hk' & Hd).
    exists ni'. split; [done|]. by apply decode_net_identity.
Qed.


(** X17.  The constraints read from the attributes of a cell whose parent, when
    one is named, is in the registry: each coordinate attribute present is
    cast to [int] and replaces the coordinate, an absent one leaves it;
    [constr_abs_z] is set exactly when [CONSTR_ABS_Z] is 1; the parent
    becomes the cell named by [CONSTR_PARENT]. *)
Theorem attributesToArchInfo_constraints (ctx ctx' : BaseCtx) (k : IdString) (ci : CellInfo) :
  attributesToArchInfo ctx = Some ctx' →
  cells ctx !! k = Some ci →
  (∀ val, c_attrs ci !! "CONSTR_PARENT" = Some val → is_Some (cells ctx !! str val)) →
  ∃ ci', cells ctx' !! k = Some ci' ∧
    (∀ key get, (key, get) ∈ [("CONSTR_X", constr_x); ("CONSTR_Y", constr_y);
                              ("CONSTR_Z", constr_z)] →
       match c_attrs ci !! key with
       | Some val => is_string val = false ∧ get ci' = to_int (intval val)
       | None => get ci' = get ci
       end) ∧
    match c_attrs ci !! "CONSTR_ABS_Z" with
    | Some val => is_string val = false ∧ (constr_abs_z ci' = true ↔ intval val = 1)
    | None => constr_abs_z ci' = constr_abs_z ci
    end ∧
    match c_attrs ci !! "CONSTR_PARENT" with
    | Some val => is_string val = true ∧ constr_parent ci' = Some (str val) ∧
                  is_Some (cells ctx' !! str val)
    | None => constr_parent ci' = constr_parent ci
    end.
Proof.
  intros H Hk Hpar.
  apply attributesToArchInfo_inv in H as (_ & _ & _ & _ & _ & Hc & _).
  destruct (Hc k ci Hk) as (ci' & Hk' & Hd). exists ci'. split; [done|].
  assert (¬ dangling_parent (cells ctx) (c_attrs ci)) as Hnd.
  { intros (val & Hv & Hnone). destruct (Hpar val Hv) as [p Hp]. congruence. }
  pose proof (decode_cell_result _ _ _ Hd) as (_ & _ & _ & Hr).
  destruct (Hr Hnd) as (Hx & Hy & Hz & Habs & Hp & _). clear Hr.
  (* what completing says about the kinds of the attributes read *)
  assert (∃ ci0, c_attrs ci0 = c_attrs ci ∧ decode_constraints (cells ctx) ci0 = Some ci')
    as (ci0 & Ha & Hd0).
  { revert Hd. unfold decode_cell.
    destruct (match c_attrs ci !! "NEXTPNR_BEL" with Some _ => _ | None => _ end)
      as [bound|] eqn:Eb; [|done].
    assert (c_attrs bound = c_attrs ci) as Hb.
    { destruct (c_attrs ci !! "NEXTPNR_BEL") as [val|]; [|by injection Eb as <-].
      destruct (match c_attrs ci !! "BEL_STRENGTH" with Some _ => _ | None => _ end);
        [|done].
      cbn [mbind option_bind] in Eb. destruct (as_string val); [|done].
      cbn [mbind option_bind] in Eb. by injection Eb as <-. }
    cbn [mbind option_bind]. rewrite Hb.
    destruct (c_attrs ci !! "CONSTR_PARENT") as [val|] eqn:Ep.
    - destruct (Hpar val eq_refl) as [p ->]. intros Hd.
      by exists (set_constr_parent (Some (str val)) bound).
    - intros Hd. by exists bound. }
  clear Hd. apply decode_constraints_kinds in Hd0. cbn zeta in Hd0. rewrite Ha in Hd0.
  destruct Hd0 as (Kx & Ky & Kz & Kabs & Kp & _).
  unfold coord_of, flag_of, parent_of, kind_ok in *.
  split; [|split].
  - intros key get Hin.
    repeat (apply elem_of_cons in Hin as [[= -> ->]|Hin]); [..|by apply elem_of_nil in Hin].
    + by destruct (c_attrs ci !! "CONSTR_X").
    + by destruct (c_attrs ci !! "CONSTR_Y").
    + by destruct (c_attrs ci !! "CONSTR_Z").
  - destruct (c_attrs ci !! "CONSTR_ABS_Z"); [|done].
    split; [done|]. rewrite Habs. apply bool_decide_eq_true.
  - destruct (c_attrs ci !! "CONSTR_PARENT") as [vp|]; [|done].
    destruct (Hpar vp eq_refl) as [p Hpk]. rewrite Hpk in Hp.
    split; [done|]. split; [done|].
    by destruct (Hc _ _ Hpk) as (p' & -> & _).
Qed.


Lemma map_traverse_id {A : Type} (f : A → option A) (m : gmap IdString A) :
  (∀ k x, m !! k = Some x → f x = Some x) → map_traverse f m = Some m.
Proof.
  intros Hf. destruct (map_traverse_Some f m) as (m' & -> & Hm).
  { intros k x Hk. rewrite (Hf k x Hk). by eexists. }
  f_equal. apply map_eq. intros k. rewrite Hm.
  destruct (m !! k) as [x|] eqn:Ek; [|done]. cbn. by apply (Hf k).
Qed.

(** X19.  With nothing to decode, nothing changes: when no cell carries
    [NEXTPNR_BEL] or a [CONSTR_] attribute and no net carries [ROUTING], the
    pass completes and gives the design it was run on.  [BEL] and
    [BEL_STRENGTH] alone are not read. *)
Theorem attributesToArchInfo_nothing_to_decode (ctx : BaseCtx) :
  (∀ k ci key, cells ctx !! k = Some ci →
     key ∈ ["NEXTPNR_BEL"; "CONSTR_X"; "CONSTR_Y"; "CONSTR_Z"; "CONSTR_ABS_Z";
            "CONSTR_PARENT"; "CONSTR_CHILDREN"] →
     c_attrs ci !! key = None) →
  (∀ k ni, nets ctx !! k = Some ni → n_attrs ni !! "ROUTING" = None) →
  attributesToArchInfo ctx = Some ctx.
Proof.
  intros Hc Hn. unfold attributesToArchInfo.
  rewrite (map_traverse_id (decode_cell (cells ctx))).
  2:{ intros k ci Hk.
      pose proof (Hc k ci "NEXTPNR_BEL" Hk ltac:(set_solver)) as Eb.
      pose proof (Hc k ci "CONSTR_X" Hk ltac:(set_solver)) as Ex.
      pose proof (Hc k ci "CONSTR_Y" Hk ltac:(set_solver)) as Ey.
      pose proof (Hc k ci "CONSTR_Z" Hk ltac:(set_solver)) as Ez.
      pose proof (Hc k ci "CONSTR_ABS_Z" Hk ltac:(set_solver)) as Ea.
      pose proof (Hc k ci "CONSTR_PARENT" Hk ltac:(set_solver)) as Ep.
      pose proof (Hc k ci "CONSTR_CHILDREN" Hk ltac:(set_solver)) as Ec.
      unfold decode_cell. rewrite Eb. cbn [mbind option_bind]. rewrite Ep.
      unfold decode_constraints.
      rewrite Ex. cbn [mbind option_bind]. rewrite Ey. cbn [mbind option_bind].
      rewrite Ez. cbn [mbind option_bind]. rewrite Ea. cbn [mbind option_bind].
      rewrite Ep. cbn [mbind option_bind]. by rewrite Ec. }
  cbn [mbind option_bind].
  rewrite (map_traverse_id decode_net).
  2:{ intros k ni Hk. unfold decode_net. by rewrite (Hn k ni Hk). }
  by destruct ctx.
Qed.


End Decoding.

(** * Round trips *)

Section RoundTrips.
Context `{arch : Arch}.

(** ** Routing *)





(** ** Constraints that are not set *)

Lemma roundtrip_cell ctx ctx' n c :
  attributesToArchInfo (fresh_design (archInfoToAttributes ctx)) = Some ctx' →
  cells ctx !! n = Some c →
  ∃ c', cells ctx' !! n = Some c' ∧
    decode_cell (cells (fresh_design (archInfoToAttributes ctx)))
      (fresh_cell (encode_cell c)) = Some c'.
Proof.
  intros Hdec Hn.
  apply attributesToArchInfo_inv in Hdec as (_ & _ & _ & _ & _ & Hc & _).
  apply Hc. by rewrite cells_fresh_encoded, Hn.
Qed.


(** ** Parent and children *)

Lemma split_semi_ne (s : string) : split_semi s ≠ [].
Proof.
  induction s as [|c s IH]; cbn [split_semi]; [done|].
  destruct (Ascii.eqb c semicolon); [done|]. by destruct (split_semi s).
Qed.

Lemma split_semi_sep (a b : string) :
  split_semi (a +:+ String semicolon b) = split_semi a ++ split_semi b.
Proof.
  induction a as [|c a IH]; [done|].
  rewrite append_cons. cbn [split_semi]. rewrite IH.
  destruct (Ascii.eqb c semicolon); [done|].
  pose proof (split_semi_ne a). by destruct (split_semi a).
Qed.

Lemma split_semi_join (acc : string) (items : list IdString) :
  acc ≠ "" → Forall no_semi items →
  split_semi (join_children acc items) = split_semi acc ++ items.
Proof.
  revert acc. induction items as [|item items IH]; intros acc Hacc Hi; cbn [join_children].
  - by rewrite app_nil_r.
  - apply Forall_cons in Hi as [Hitem Hi].
    rewrite decide_False by done.
    rewrite IH; [|by destruct acc|done].
    rewrite append_assoc. change (";" +:+ item) with (String semicolon item).
    rewrite split_semi_sep, (split_semi_no_semi item Hitem), <- app_assoc. done.
Qed.

(** The names of the children of a cell, joined by [archInfoToAttributes]
    and split again by [attributesToArchInfo], are the same names when none
    of them is empty or contains the separator. *)
Lemma split_semi_join_children (items : list IdString) :
  items ≠ [] → Forall (λ name, name ≠ "" ∧ no_semi name) items →
  split_semi (join_children "" items) = items.
Proof.
  destruct items as [|item items]; [done|]. intros _ Hi.
  apply Forall_cons in Hi as [[Hne Hitem] Hi].
  cbn [join_children]. rewrite decide_True by done.
  change ("" +:+ item) with item.
  rewrite split_semi_join; [|done|by eapply Forall_impl; [exact Hi|]; intros ? [??]].
  by rewrite (split_semi_no_semi item Hitem).
Qed.

(** X23.  The relative constraints survive the round trip: for a cell whose
    parent and children are cells of the design, the children's names being
    non-empty and free of the separator, encoding the design and decoding it
    on a fresh entity set gives the cell the same parent and the same
    children in the same order. *)
Theorem parent_children_roundtrip (ctx : BaseCtx) (n p : IdString) (c : CellInfo) :
  well_formed ctx →
  cells ctx !! n = Some c →
  constr_parent c = Some p → is_Some (cells ctx !! p) →
  constr_children c ≠ [] →
  Forall (λ name, (name ≠ "" ∧ no_semi name) ∧ is_Some (cells ctx !! name))
    (constr_children c) →
  ∃ ctx' c',
    attributesToArchInfo (fresh_design (archInfoToAttributes ctx)) = Some ctx' ∧
    cells ctx' !! n = Some c' ∧
    constr_parent c' = Some p ∧ constr_children c' = constr_children c.
Proof.
  intros Hwf Hn Hp [pc Hpc] Hne Hch.
  destruct (roundtrip_design ctx Hwf) as (ctx' & Hdec & _).
  destruct (roundtrip_cell _ _ _ _ Hdec Hn) as (c' & Hn' & Hd).
  exists ctx', c'. split; [done|]. split; [done|].
  apply decode_cell_result in Hd as (_ & _ & _ & Hr). cbn zeta in Hr.
  change (c_attrs (fresh_cell (encode_cell c))) with (c_attrs (encode_cell c)) in *.
  rewrite encode_cell_attrs in *.
  assert (∀ name, is_Some (cells ctx !! name) →
            is_Some (cells (fresh_design (archInfoToAttributes ctx)) !! name)) as Hreg.
  { intros name [x Hx]. rewrite cells_fresh_encoded, Hx. by eexists. }
  destruct Hr as (_ & _ & _ & _ & Hpar & Hchildren).
  { intros (val & Hv & Hnone). rewrite (encode_attrs_parent c p Hp) in Hv.
    injection Hv as <-. cbn [str Property_string] in Hnone.
    destruct (Hreg p) as [? ?]; [by eexists|]. congruence. }
  unfold parent_of, children_of in *.
  rewrite (encode_attrs_parent c p Hp) in Hpar.
  rewrite (encode_attrs_children c Hne) in Hchildren.
  cbn [str Property_string] in *.
  destruct (Hreg p) as [x Hx]; [by eexists|]. rewrite Hx in Hpar.
  split; [done|]. rewrite Hchildren.
  cbn [constr_children fresh_cell set_c_attrs set_c_ports CellInfo_new app].
  rewrite split_semi_join_children;
    [|done|by eapply Forall_impl; [exact Hch|]; intros ? [??]].
  clear -Hch Hreg. induction Hch as [|name names [_ Hname] _ IH]; [done|].
  rewrite filter_cons_True by (by apply Hreg). by rewrite IH.
Qed.

End RoundTrips.

(** * Runs on the example designs *)

Section Examples.
Local Existing Instance grid_arch.

Example design_encoded_routing :
  n_attrs <$> nets (archInfoToAttributes design) !! "clk"
  = Some {[ "ROUTING" := Property_string "7;7;3;9;;1" ]}.
Proof. vm_compute. reflexivity. Qed.

Ltac run := vm_compute; repeat split; try done; try discriminate.

Lemma design_well_formed : well_formed design.
Proof.
  split; apply map_Forall_singleton.
  - run.
  - repeat constructor; run.
Defined.

Lemma cell_binding_roundtrip_witness :
  ∃ ctx' c',
    attributesToArchInfo (fresh_design (archInfoToAttributes design)) = Some ctx' ∧
    cells ctx' !! "lut" = Some c' ∧
    bel c' = bel cell_lut ∧ belStrength c' = belStrength cell_lut ∧
    constr_x c' = constr_x cell_lut ∧ constr_y c' = constr_y cell_lut ∧
    constr_z c' = constr_z cell_lut ∧ constr_abs_z c' = constr_abs_z cell_lut.
Proof.
  apply (cell_binding_roundtrip design "lut" cell_lut);
    [exact design_well_formed | reflexivity | run..].
Defined.

Lemma net_routing_roundtrip_witness :
  ∃ ctx' ni',
    attributesToArchInfo (fresh_design (archInfoToAttributes design)) = Some ctx' ∧
    nets ctx' !! "clk" = Some ni' ∧
    wires ni' ≡ₚ [(7, {| pip := 7; strength := 3 |}); (9, {| pip := -1; strength := 1 |})].
Proof.
  apply (net_routing_roundtrip design "clk" net_clk 7 9 7 3 1);
    [exact design_well_formed | reflexivity | reflexivity | run..].
Defined.

Lemma routing_three_fields_per_wire_witness :
  ∃ ni' routing,
    nets (archInfoToAttributes design) !! "clk" = Some ni' ∧
    n_attrs ni' !! "ROUTING" = Some (Property_string routing) ∧
    length (split_semi routing) = 6%nat ∧
    split_semi routing = ["7"; "7"; "3"; "9"; ""; "1"].
Proof.
  apply (routing_three_fields_per_wire design "clk" net_clk);
    [reflexivity | done | repeat constructor; run].
Defined.

Lemma routing_leftover_fields_ignored_witness :
  decode_net net_leftover = decode_groups ["7"; ""; "2"] net_leftover ∧
  (4 < 3 → decode_net net_leftover = Some net_leftover)%nat ∧
  (decode_net net_leftover = None → attributesToArchInfo design_leftover = None) ∧
  (∀ ctx', attributesToArchInfo design_leftover = Some ctx' →
           nets ctx' !! "n" = decode_net net_leftover).
Proof.
  apply (routing_leftover_fields_ignored design_leftover "n" net_leftover
           (Property_string "7;;2;9")); reflexivity.
Defined.

Example leftover_bound_wire :
  wires <$> decode_net net_leftover = Some [(7, {| pip := -1; strength := 2 |})].
Proof. reflexivity. Qed.

(** C10 as stated fails here: the field count, four, is not a multiple of
    three, and decoding stops abnormally in [std::stoi]. *)
Lemma routing_decode_fails_counterexample :
  length (split_semi "w;;x;y") = 4%nat ∧
  (length (split_semi "w;;x;y") mod 3 ≠ 0)%nat ∧
  decode_net net_bad_strength = None ∧
  attributesToArchInfo design_bad_strength = None.
Proof. repeat split; try reflexivity. by vm_compute. Qed.



Lemma constrain_hierarchy_to_region_witness :
  (∃ ctx',
     constrainCellToRegion 3 "top" "R" design_hier = Some ctx' ∧
     (∀ c, c ∈ ["a"; "b"; "c"] → ∃ ci, cells ctx' !! c = Some ci ∧ c_region ci = Some "R") ∧
     log ctx' = log design_hier) ∧
  (∃ ctx',
     constrainCellToRegion 3 "top" "R" design_ghosts = Some ctx' ∧
     (c_region <$> cells ctx' !! "b") = Some (Some "R") ∧
     log ctx'
     = [LogWarning "No cell matched '%s' when constraining to region '%s'\n"
          [ArgStr "a"; ArgStr "R"];
        LogWarning "No cell matched '%s' when constraining to region '%s'\n"
          [ArgStr "c"; ArgStr "R"]]) ∧
  (∃ ctx',
     constrainCellToRegion 3 "nobody" "R" design_hier = Some ctx' ∧
     log ctx'
     = [LogWarning "No cell matched '%s' when constraining to region '%s'\n"
          [ArgStr "nobody"; ArgStr "R"]] ∧
     cells ctx' = cells design_hier).
Proof.
  destruct (constrain_hierarchy_to_region design_hier "top" "sub" "a" "b" "c"
              "u1" "u2" "u3" "s" "R" region_R 3)
    as [(ctx' & Hrun & _ & _ & Hall & _) Hunknown]; try reflexivity.
  destruct (constrain_hierarchy_to_region design_ghosts "top" "sub" "a" "b" "c"
              "u1" "u2" "u3" "s" "R" region_R 3)
    as [(ctx2 & Hrun2 & Hcells2 & Hlog2 & _) _]; try reflexivity.
  split; [|split].
  - exists ctx'. split; [exact Hrun|]. apply Hall; by eexists.
  - exists ctx2. split; [exact Hrun2|]. split; [|exact Hlog2].
    rewrite (Hcells2 "b"). reflexivity.
  - destruct (Hunknown "nobody" eq_refl eq_refl) as (ctx3 & Hrun3 & Hlog3 & Hcells3 & _).
    by exists ctx3.
Defined.

Example constrain_unknown_name :
  log <$> constrainCellToRegion 3 "nobody" "R" design_hier
  = Some [LogWarning "No cell matched '%s' when constraining to region '%s'\n"
            [ArgStr "nobody"; ArgStr "R"]].
Proof. reflexivity. Qed.

Lemma addBelToRegion_known_or_fails_witness :
  (∃ ctx' r',
     addBelToRegion "R" 4 design_hier = Some ctx' ∧
     region ctx' !! "R" = Some (Some r') ∧
     (∀ x, x ∈ bels r' ↔ x = 4 ∨ x ∈ bels region_R)) ∧
  (addBelToRegion "Q" 4 design_hier = None ∧
   ∃ stopped,
     addBelToRegion_outcome "Q" 4 design_hier = Stops stopped ∧
     region stopped !! "Q" = Some None ∧
     region stopped !! "R" = region design_hier !! "R" ∧
     cells stopped = cells design_hier).
Proof.
  destruct (addBelToRegion_known_or_fails design_hier "R" 4) as [Hknown _].
  destruct (addBelToRegion_known_or_fails design_hier "Q" 4) as [_ Hunknown].
  split.
  - destruct (Hknown region_R eq_refl) as (ctx' & r' & _ & H1 & H2 & H3 & _).
    by exists ctx', r'.
  - destruct Hunknown as (Hnone & stopped & Hout & Hq & Hother & _ & _ & Hcells & _).
    { intros r. discriminate. }
    split; [exact Hnone|]. exists stopped.
    split; [exact Hout|]. split; [exact Hq|]. split; [by apply Hother|exact Hcells].
Defined.

(** C9 as stated fails here: no region is registered under [Q], the call
    stops, and the region table, which had no entry for [Q], has one. *)
Lemma addBelToRegion_unknown_counterexample :
  region design_hier !! "Q" = None ∧
  addBelToRegion "Q" 4 design_hier = None ∧
  ∃ stopped,
    addBelToRegion_outcome "Q" 4 design_hier = Stops stopped ∧
    region stopped !! "Q" = Some None ∧
    region stopped ≠ region design_hier.
Proof.
  split; [reflexivity|]. split; [reflexivity|].
  eexists. split; [reflexivity|]. split; [reflexivity|].
  intros Heq.
  assert (region (set_region (<["Q" := None]> (region design_hier)) design_hier) !! "Q"
          = region design_hier !! "Q") as Hk by (by rewrite Heq).
  discriminate Hk.
Qed.

Lemma addClock_warns_or_constrains_witness :
  (∃ ctx',
     addClock "nope" 100 design = Some ctx' ∧ nets ctx' = nets design ∧
     log ctx' = [LogWarning "net '%s' does not exist in design, ignoring clock constraint\n"
                   [ArgStr "nope"]]) ∧
  (∃ ctx' ni',
     addClock "clk" 100 design = Some ctx' ∧ nets ctx' !! "clk" = Some ni' ∧
     clkconstr ni' = Some {| period := DelayPair_of 10; high := DelayPair_of 5;
                             low := DelayPair_of 5 |}).
Proof.
  destruct (addClock_warns_or_constrains design "nope" 100) as [Habsent _].
  destruct (addClock_warns_or_constrains design "clk" 100) as [_ Hpresent].
  split.
  - destruct (Habsent eq_refl) as (ctx' & H1 & H2 & _ & _ & _ & _ & H3). by exists ctx'.
  - destruct (Hpresent "clk" net_clk eq_refl eq_refl) as (ctx' & ni' & H1 & H2 & H3 & _).
    by exists ctx', ni'.
Defined.

Lemma ripupNet_unbinds_all_witness :
  ∃ ctx' ni',
    ripupNet "clk" design = Some ctx' ∧
    ctx' = foldl (λ c w, unbindWire w c) design [7; 9] ∧
    nets ctx' !! "clk" = Some ni' ∧ wires ni' = [] ∧
    (∀ j n, nets design !! j = Some n →
       ∃ n', nets ctx' !! j = Some n' ∧ driver n' = driver n ∧ users n' = users n ∧
             n_name n' = n_name n ∧ n_attrs n' = n_attrs n ∧ clkconstr n' = clkconstr n) ∧
    cells ctx' = cells design ∧ net_aliases ctx' = net_aliases design.
Proof. apply (ripupNet_unbinds_all design "clk" "clk" net_clk). reflexivity. Defined.

Lemma createNet_alias_invariant_witness :
  createNet "clk" design = None ∧
  (∃ ctx', createNet "rst" design = Some (ctx', "rst") ∧
           net_aliases ctx' = <["rst" := "rst"]> (net_aliases design)) ∧
  (∀ ctx', run_ops [OpCreateNet "a"; OpCreateNet "b"] empty_ctx = Some ctx' →
           alias_canonical ctx').
Proof.
  destruct createNet_alias_invariant as (Hfail & Hnew & Hempty & Hseq & _).
  split; [|split].
  - apply Hfail. left. by eexists.
  - destruct (Hnew design "rst" eq_refl eq_refl) as (ctx' & H1 & _ & H2 & _). by exists ctx'.
  - intros ctx'. by apply (Hseq ["a"; "b"] empty_ctx ctx').
Defined.

End Examples.

(** * More runs on the example designs *)

Section MoreExamples.
Local Existing Instance grid_arch.

Ltac run := vm_compute; repeat split; try done; try discriminate.


Example design_locked :
  (lockNetRouting "clk" design ≫= λ ctx', wires <$> nets ctx' !! "clk")
  = Some [(7, {| pip := 7; strength := 6 |}); (9, {| pip := -1; strength := 6 |})].
Proof. reflexivity. Qed.

Lemma copyBelPorts_ports_witness :
  ∃ ctx' ci',
    copyBelPorts "lut" 3 design = Some ctx' ∧
    cells ctx' !! "lut" = Some ci' ∧
    (∀ pin, pin ∈ ["I"; "O"] →
       c_ports ci' !! pin
       = Some {| p_name := pin; p_net := c_ports cell_lut !! pin ≫= p_net;
                 p_type := getBelPinType 3 pin |}) ∧
    (∀ pin, pin ∉ ["I"; "O"] → c_ports ci' !! pin = c_ports cell_lut !! pin) ∧
    ci' = set_c_ports (c_ports ci') cell_lut ∧
    (∀ other, other ≠ "lut" → cells ctx' !! other = cells design !! other) ∧
    nets ctx' = nets design ∧ log ctx' = log design.
Proof. apply (copyBelPorts_ports design "lut" 3 cell_lut). reflexivity. Defined.

Lemma constrain_to_unknown_region_witness :
  ∃ ctx',
    constrainCellToRegion 1 "lut" "R" design = Some ctx' ∧
    cells ctx' !! "lut" = Some (set_c_region None cell_lut) ∧
    region ctx' = <["R" := None]> (region design) ∧
    log ctx' = log design ∧
    addBelToRegion "R" 3 ctx' = None.
Proof.
  apply (constrain_to_unknown_region design "lut" "R" cell_lut 0 3); reflexivity.
Defined.

Lemma constrainCellToRegion_touches_regions_only_witness :
  ∃ ctx',
    constrainCellToRegion 3 "top" "R" design_hier = Some ctx' ∧
    nets ctx' = nets design_hier ∧ net_aliases ctx' = net_aliases design_hier ∧
    hierarchy ctx' = hierarchy design_hier ∧
    (∀ k, cells design_hier !! k = None → cells ctx' !! k = None) ∧
    (∀ k ci, cells design_hier !! k = Some ci →
       ∃ r, cells ctx' !! k = Some (set_c_region r ci)) ∧
    (∀ k rg, region design_hier !! k = Some rg → region ctx' !! k = Some rg) ∧
    log design_hier `prefix_of` log ctx'.
Proof.
  eexists. split; [reflexivity|].
  apply (constrainCellToRegion_touches_regions_only 3 "top" "R" design_hier). reflexivity.
Defined.

Lemma constrain_self_nested_never_returns_witness :
  constrainCellToRegion 1 "loop" "R" design_loop = None ∧
  constrainCellToRegion 64 "loop" "R" design_loop = None.
Proof.
  split;
    apply (constrain_self_nested_never_returns design_loop "loop" "R" "self"
             {| leaf_cells := []; hier_cells := [("self", "loop")] |});
    (reflexivity || apply list_elem_of_here).
Defined.

Lemma hier_rank_decreases parent hc l child :
  hierarchy design_hier !! parent = Some hc →
  (l, child) ∈ leaf_cells hc ++ hier_cells hc →
  (hier_rank child < hier_rank parent)%nat.
Proof.
  unfold design_hier. cbn [hierarchy]. intros H Hin.
  apply lookup_insert_Some in H as [[<- <-]|[_ H]].
  - cbn [leaf_cells hier_cells app] in Hin.
    repeat (apply elem_of_cons in Hin as [[= -> ->]|Hin]); [vm_compute; lia..|].
    by apply elem_of_nil in Hin.
  - apply lookup_singleton_Some in H as [<- <-].
    cbn [leaf_cells hier_cells app] in Hin.
    repeat (apply elem_of_cons in Hin as [[= -> ->]|Hin]); [vm_compute; lia..|].
    by apply elem_of_nil in Hin.
Defined.

Lemma constrain_acyclic_completes_witness :
  ∃ ctx', ∀ fuel, (2 < fuel)%nat →
    constrainCellToRegion fuel "top" "R" design_hier = Some ctx'.
Proof.
  apply (constrain_acyclic_completes design_hier hier_rank "top" "R").
  exact hier_rank_decreases.
Defined.

Lemma archInfoToAttributes_placement_keys_witness :
  ∃ ci',
    cells (archInfoToAttributes design) !! "lut" = Some ci' ∧
    (bel cell_lut ≠ BelId_null →
       c_attrs ci' !! "BEL" = None ∧
       c_attrs ci' !! "NEXTPNR_BEL" = Some (Property_string (getBelName (bel cell_lut))) ∧
       c_attrs ci' !! "BEL_STRENGTH" = Some (Property_int (belStrength cell_lut))) ∧
    (bel cell_lut = BelId_null →
       ∀ key, key ∈ ["BEL"; "NEXTPNR_BEL"; "BEL_STRENGTH"] →
              c_attrs ci' !! key = c_attrs cell_lut !! key).
Proof. apply (archInfoToAttributes_placement_keys design "lut" cell_lut). reflexivity. Defined.

Lemma design_family_decodes :
  ∃ ctx1 ctx2,
    attributesToArchInfo design_family = Some ctx1 ∧ attributesToArchInfo ctx1 = Some ctx2.
Proof.
  assert (is_Some (attributesToArchInfo design_family ≫= attributesToArchInfo))
    as [ctx2 H].
  { apply (bool_decide_eq_true_1 _). reflexivity. }
  destruct (attributesToArchInfo design_family) as [ctx1|]; [|done].
  by exists ctx1, ctx2.
Qed.

Lemma attributesToArchInfo_keeps_identity_witness :
  ∃ ctx',
    attributesToArchInfo design_family = Some ctx' ∧
    log ctx' = log design_family ∧ net_aliases ctx' = net_aliases design_family ∧
    region ctx' = region design_family ∧ hierarchy ctx' = hierarchy design_family ∧
    (∀ k, cells design_family !! k = None → cells ctx' !! k = None) ∧
    (∀ k ci, cells design_family !! k = Some ci →
       ∃ ci', cells ctx' !! k = Some ci' ∧ cell_identity ci' = cell_identity ci) ∧
    (∀ k, nets design_family !! k = None → nets ctx' !! k = None) ∧
    (∀ k ni, nets design_family !! k = Some ni →
       ∃ ni', nets ctx' !! k = Some ni' ∧ net_identity ni' = net_identity ni).
Proof.
  destruct design_family_decodes as (ctx1 & _ & E & _).
  exists ctx1. split; [exact E|].
  exact (attributesToArchInfo_keeps_identity design_family ctx1 E).
Defined.


Example design_family_decoded :
  (attributesToArchInfo design_family ≫= λ ctx',
     (λ ci, (bel ci, belStrength ci, constr_x ci, constr_abs_z ci, constr_parent ci,
             constr_children ci)) <$> cells ctx' !! "mid")
  = Some (4, 6, 2, true, Some "root", ["kid"; "kid"]).
Proof. reflexivity. Qed.

Lemma attributesToArchInfo_constraints_witness :
  ∃ ctx' ci',
    attributesToArchInfo design_family = Some ctx' ∧
    cells ctx' !! "mid" = Some ci' ∧
    constr_x ci' = 2 ∧ constr_y ci' = UNCONSTR ∧ constr_abs_z ci' = true ∧
    constr_parent ci' = Some "root".
Proof.
  destruct design_family_decodes as (ctx1 & _ & E & _).
  destruct (attributesToArchInfo_constraints design_family ctx1 "mid" cell_mid E eq_refl)
    as (ci' & Hk & Hxyz & Habs & Hpar).
  { intros val [= <-]. by eexists. }
  exists ctx1, ci'. split; [exact E|]. split; [exact Hk|].
  pose proof (Hxyz "CONSTR_X" constr_x ltac:(apply list_elem_of_here)) as [_ Hx].
  pose proof (Hxyz "CONSTR_Y" constr_y
                ltac:(apply list_elem_of_further, list_elem_of_here)) as Hy.
  destruct Habs as [_ Habs]. destruct Hpar as (_ & Hpar & _).
  repeat split; [exact Hx|exact Hy|by apply Habs|exact Hpar].
Defined.


Lemma attributesToArchInfo_nothing_to_decode_witness :
  attributesToArchInfo design = Some design.
Proof.
  apply (attributesToArchInfo_nothing_to_decode design).
  - intros k ci key Hk _. unfold design in Hk. cbn [cells] in Hk.
    apply lookup_singleton_Some in Hk as [_ <-]. reflexivity.
  - intros k ni Hk. unfold design in Hk. cbn [nets] in Hk.
    apply lookup_singleton_Some in Hk as [_ <-]. reflexivity.
Defined.





Lemma design_tree_well_formed : well_formed design_tree.
Proof.
  split; [|apply map_Forall_empty].
  intros k ci Hk. unfold design_tree in Hk. cbn [cells] in Hk.
  repeat (apply lookup_insert_Some in Hk as [[_ <-]|[_ Hk]]; [run|]).
  apply lookup_singleton_Some in Hk as [_ <-]. run.
Defined.

Lemma parent_children_roundtrip_witness :
  ∃ ctx' c',
    attributesToArchInfo (fresh_design (archInfoToAttributes design_tree)) = Some ctx' ∧
    cells ctx' !! "m" = Some c' ∧
    constr_parent c' = Some "p" ∧ constr_children c' = ["k1"; "k2"].
Proof.
  apply (parent_children_roundtrip design_tree "m" "p" cell_branch).
  - exact design_tree_well_formed.
  - reflexivity.
  - reflexivity.
  - by eexists.
  - done.
  - repeat constructor; try done; by eexists.
Defined.

End MoreExamples.
